(** * genegpt chat client: frontend/static/script.js

    A shallow embedding of the page script and the properties its
    specification states about it.

    - JavaScript strings are sequences of UTF-16 code units ([jsstring]).
    - The built-ins the script calls are modelled after ECMA-262:
      [RegExp.prototype.test] and [String.prototype.replace] with a
      pattern ([Regex]), [String.prototype.trim], [Array.prototype.slice],
      [JSON.stringify] and [JSON.parse] ([Json]).
    - The markdown renderer [marked.parse] is an external library; the
      script is parameterised by it, as a function from strings to
      strings.
    - The page is a record of the mutable things the script touches
      (the [messages] array, the [gene_history] entry of localStorage,
      the children of [#chat-box], the controls), threaded through a
      small state monad.  An effect log records the order of pushes,
      storage writes and requests.
    - [sendMessage] is an async function: it is split at its awaits into
      the part that runs up to the fetch and the part that runs when the
      response has arrived.  A response body is taken to follow the
      interface [{ reply?: string, html?: string }].
    - What only touches presentation is left out: scrolling, the copy
      buttons, the height of the input, the focus, the theme toggle. *)

From Stdlib Require Import String Ascii Bool NArith ZArith Lia List.
Import ListNotations.

Set Implicit Arguments.
Set Warnings "-register-all".

(** ** JavaScript strings *)

(** A UTF-16 code unit. *)
Definition code_unit : Type := N.

Definition jsstring : Type := list code_unit.

(** An ASCII literal as a JavaScript string. *)
Definition lit (s : string) : jsstring :=
  List.map N_of_ascii (list_ascii_of_string s).

Fixpoint jsstring_eqb (a b : jsstring) : bool :=
  match a, b with
  | [], [] => true
  | x :: a', y :: b' => N.eqb x y && jsstring_eqb a' b'
  | _, _ => false
  end.

(** [a] is a prefix of [s]. *)
Fixpoint starts_with (a s : jsstring) : bool :=
  match a, s with
  | [], _ => true
  | x :: a', y :: s' => N.eqb x y && starts_with a' s'
  | _ :: _, [] => false
  end.

(** [x || d] on a string: the empty string is falsy. *)
Definition or_else (x d : jsstring) : jsstring :=
  match x with [] => d | _ => x end.

(** ECMA-262 WhiteSpace and LineTerminator code points, the ones
    [String.prototype.trim] strips. *)
Definition is_js_whitespace (c : code_unit) : bool :=
  ((9 <=? c) && (c <=? 13) || (c =? 32) || (c =? 160) || (c =? 5760)
   || (8192 <=? c) && (c <=? 8202) || (c =? 8232) || (c =? 8233)
   || (c =? 8239) || (c =? 8287) || (c =? 12288) || (c =? 65279))%N.

Fixpoint trimStart (s : jsstring) : jsstring :=
  match s with
  | c :: s' => if is_js_whitespace c then trimStart s' else s
  | [] => []
  end.

Definition trimEnd (s : jsstring) : jsstring := rev (trimStart (rev s)).

Definition trim (s : jsstring) : jsstring := trimEnd (trimStart s).

(** [Array.prototype.slice(start)] with no end argument. *)
Definition Array_slice (A : Type) (start : Z) (l : list A) : list A :=
  let len := Z.of_nat (length l) in
  let k := if (start <? 0)%Z then Z.max (len + start) 0 else Z.min start len in
  skipn (Z.to_nat k) l.

(** ** Regular expressions *)

Module Regex.

(** The fragment of pattern syntax the script uses: single characters,
    classes, [?], [*] and concatenation. *)
Inductive regex : Type :=
| Void
| Eps
| Class (p : code_unit -> bool)
| Cat (r1 r2 : regex)
| Alt (r1 r2 : regex)
| Star (r : regex).

Definition Chr (c : code_unit) : regex := Class (N.eqb c).
Definition Opt (r : regex) : regex := Alt r Eps.

(** The strings a pattern matches in full. *)
Inductive matches : regex -> jsstring -> Prop :=
| m_eps : matches Eps []
| m_class p c : p c = true -> matches (Class p) [c]
| m_cat r1 r2 s1 s2 : matches r1 s1 -> matches r2 s2 -> matches (Cat r1 r2) (s1 ++ s2)
| m_alt_l r1 r2 s : matches r1 s -> matches (Alt r1 r2) s
| m_alt_r r1 r2 s : matches r2 s -> matches (Alt r1 r2) s
| m_star_nil r : matches (Star r) []
| m_star_app r s1 s2 : matches r s1 -> matches (Star r) s2 -> matches (Star r) (s1 ++ s2).

Fixpoint nullable (r : regex) : bool :=
  match r with
  | Void => false
  | Eps => true
  | Class _ => false
  | Cat r1 r2 => nullable r1 && nullable r2
  | Alt r1 r2 => nullable r1 || nullable r2
  | Star _ => true
  end.

(** Brzozowski derivative: what is left to match after reading [c]. *)
Fixpoint deriv (c : code_unit) (r : regex) : regex :=
  match r with
  | Void => Void
  | Eps => Void
  | Class p => if p c then Eps else Void
  | Cat r1 r2 =>
      if nullable r1 then Alt (Cat (deriv c r1) r2) (deriv c r2)
      else Cat (deriv c r1) r2
  | Alt r1 r2 => Alt (deriv c r1) (deriv c r2)
  | Star r1 => Cat (deriv c r1) (Star r1)
  end.

(** Does the pattern match some prefix of [s]? *)
Fixpoint match_here (r : regex) (s : jsstring) : bool :=
  nullable r ||
  match s with
  | [] => false
  | c :: s' => match_here (deriv c r) s'
  end.

(** [RegExp.prototype.test] for a pattern without anchors: try every
    start index. *)
Fixpoint test (r : regex) (s : jsstring) : bool :=
  match_here r s ||
  match s with
  | [] => false
  | _ :: s' => test r s'
  end.

(** [String.prototype.replace] with a global literal pattern [pat] and a
    replacement [repl] without [$]: matches are found left to right and do
    not overlap.  [skip] counts the code units of the current match that are
    still to be dropped. *)
Fixpoint replace_from (pat repl : jsstring) (skip : nat) (s : jsstring) : jsstring :=
  match s with
  | [] => []
  | c :: s' =>
      match skip with
      | S k => replace_from pat repl k s'
      | O =>
          if starts_with pat s
          then repl ++ replace_from pat repl (length pat - 1) s'
          else c :: replace_from pat repl 0 s'
      end
  end.

Definition replace_global (pat repl s : jsstring) : jsstring :=
  replace_from pat repl 0 s.

End Regex.

(** ** The renderer's patterns *)

Definition is_ascii_letter (c : code_unit) : bool :=
  ((65 <=? c) && (c <=? 90) || (97 <=? c) && (c <=? 122))%N.

Definition LT : code_unit := 60%N.
Definition GT : code_unit := 62%N.
Definition SLASH : code_unit := 47%N.

(** [/<\/?[a-z][\s\S]*>/i].  Under the [i] flag (without [u]) the class
    [[a-z]] accepts exactly the ASCII letters of either case; [[\s\S]]
    accepts every code unit. *)
Definition html_tag_pattern : Regex.regex :=
  Regex.Cat (Regex.Chr LT)
    (Regex.Cat (Regex.Opt (Regex.Chr SLASH))
       (Regex.Cat (Regex.Class is_ascii_letter)
          (Regex.Cat (Regex.Star (Regex.Class (fun _ => true)))
             (Regex.Chr GT)))).

(** [const containsHTML = /<\/?[a-z][\s\S]*>/i.test(content)] (line 53) *)
Definition containsHTML (content : jsstring) : bool :=
  Regex.test html_tag_pattern content.

Definition img_open : jsstring := lit "<img ".

Definition img_style : jsstring :=
  lit "style='max-width:100%; height:auto; display:block; margin:10px 0;' ".

(** [html.replace(/<img /g, "<img style='...' ")] (lines 60-63) *)
Definition fix_images (html : jsstring) : jsstring :=
  Regex.replace_global img_open (img_open ++ img_style) html.

(** ** JSON *)

Module Json.

(** A JSON value.  A number is kept as its source text: the script never
    computes with one. *)
Inductive json : Type :=
| JNull
| JBool (b : bool)
| JNumber (lexeme : jsstring)
| JString (s : jsstring)
| JArray (items : list json)
| JObject (members : list (jsstring * json)).

Definition QUOTE : code_unit := 34%N.
Definition BACKSLASH : code_unit := 92%N.

(** *** JSON.stringify *)

Definition hex_digit (d : N) : code_unit :=
  (if d <? 10 then 48 + d else 87 + d)%N.

(** [UnicodeEscape]: a backslash, [u] and four lowercase hex digits. *)
Definition unicode_escape (c : code_unit) : jsstring :=
  [BACKSLASH; 117; hex_digit (c / 4096 mod 16); hex_digit (c / 256 mod 16);
   hex_digit (c / 16 mod 16); hex_digit (c mod 16)]%N.

Definition is_lead_surrogate (c : code_unit) : bool :=
  ((55296 <=? c) && (c <=? 56319))%N.

Definition is_trail_surrogate (c : code_unit) : bool :=
  ((56320 <=? c) && (c <=? 57343))%N.

(** One code point that is a single code unit, as [QuoteJSONString]
    writes it. *)
Definition quote_unit (c : code_unit) : jsstring :=
  (if c =? 8 then [BACKSLASH; 98]
   else if c =? 9 then [BACKSLASH; 116]
   else if c =? 10 then [BACKSLASH; 110]
   else if c =? 12 then [BACKSLASH; 102]
   else if c =? 13 then [BACKSLASH; 114]
   else if c =? 34 then [BACKSLASH; 34]
   else if c =? 92 then [BACKSLASH; 92]
   else if (c <? 32) || is_lead_surrogate c || is_trail_surrogate c
        then unicode_escape c
   else [c])%N.

(** The string is read code point by code point: a lead surrogate followed
    by a trail surrogate is one code point and is copied, a surrogate on
    its own is escaped. *)
Fixpoint quote_units (s : jsstring) : jsstring :=
  match s with
  | [] => []
  | c :: s1 =>
      if is_lead_surrogate c then
        match s1 with
        | d :: s2 =>
            if is_trail_surrogate d then c :: d :: quote_units s2
            else unicode_escape c ++ quote_units s1
        | [] => unicode_escape c
        end
      else quote_unit c ++ quote_units s1
  end.

(** [QuoteJSONString] *)
Definition quote (s : jsstring) : jsstring :=
  [QUOTE] ++ quote_units s ++ [QUOTE].

Fixpoint join (sep : jsstring) (parts : list jsstring) : jsstring :=
  match parts with
  | [] => []
  | [p] => p
  | p :: rest => p ++ sep ++ join sep rest
  end.

(** [JSON.stringify(value)] without indentation. *)
Fixpoint stringify (v : json) : jsstring :=
  match v with
  | JNull => lit "null"
  | JBool true => lit "true"
  | JBool false => lit "false"
  | JNumber lexeme => lexeme
  | JString s => quote s
  | JArray items => lit "[" ++ join (lit ",") (List.map stringify items) ++ lit "]"
  | JObject members =>
      lit "{"
      ++ join (lit ",")
           (List.map (fun kv => quote (fst kv) ++ lit ":" ++ stringify (snd kv)) members)
      ++ lit "}"
  end.

(** *** JSON.parse *)

(** The result of reading a prefix of the text: the value read and the
    text after it, or a [SyntaxError].  [OutOfFuel] belongs to the model
    alone. *)
Inductive outcome (A : Type) : Type :=
| Parsed (a : A) (rest : jsstring)
| SyntaxError
| OutOfFuel.
Arguments SyntaxError {A}.
Arguments OutOfFuel {A}.

Definition bind (A B : Type) (x : outcome A) (k : A -> jsstring -> outcome B) : outcome B :=
  match x with
  | Parsed a rest => k a rest
  | SyntaxError => SyntaxError
  | OutOfFuel => OutOfFuel
  end.

Definition is_json_ws (c : code_unit) : bool :=
  ((c =? 32) || (c =? 9) || (c =? 10) || (c =? 13))%N.

Fixpoint skip_ws (s : jsstring) : jsstring :=
  match s with
  | c :: s' => if is_json_ws c then skip_ws s' else s
  | [] => []
  end.

Definition is_digit (c : code_unit) : bool := ((48 <=? c) && (c <=? 57))%N.

Definition hex_value (c : code_unit) : option N :=
  (if is_digit c then Some (c - 48)
   else if (97 <=? c) && (c <=? 102) then Some (c - 87)
   else if (65 <=? c) && (c <=? 70) then Some (c - 55)
   else None)%N.

Definition hex4 (a b c d : code_unit) : option code_unit :=
  match hex_value a, hex_value b, hex_value c, hex_value d with
  | Some x, Some y, Some z, Some w => Some (x * 4096 + y * 256 + z * 16 + w)%N
  | _, _, _, _ => None
  end.

(** The code unit a one-letter escape stands for. *)
Definition simple_escape (e : code_unit) : option code_unit :=
  (if e =? 34 then Some 34
   else if e =? 92 then Some 92
   else if e =? 47 then Some 47
   else if e =? 98 then Some 8
   else if e =? 102 then Some 12
   else if e =? 110 then Some 10
   else if e =? 114 then Some 13
   else if e =? 116 then Some 9
   else None)%N.

Definition cons_unit (c : code_unit) (x : outcome jsstring) : outcome jsstring :=
  bind x (fun s rest => Parsed (c :: s) rest).

(** The characters of a string literal after its opening quote, up to
    and including the closing quote. *)
Fixpoint parse_chars (s : jsstring) : outcome jsstring :=
  match s with
  | [] => SyntaxError
  | c :: s1 =>
      if (c =? 34)%N then Parsed [] s1
      else if (c =? 92)%N then
        match s1 with
        | [] => SyntaxError
        | e :: s2 =>
            if (e =? 117)%N then
              match s2 with
              | h1 :: h2 :: h3 :: h4 :: s3 =>
                  match hex4 h1 h2 h3 h4 with
                  | Some u => cons_unit u (parse_chars s3)
                  | None => SyntaxError
                  end
              | _ => SyntaxError
              end
            else
              match simple_escape e with
              | Some u => cons_unit u (parse_chars s2)
              | None => SyntaxError
              end
        end
      else if (c <? 32)%N then SyntaxError
      else cons_unit c (parse_chars s1)
  end.

(** The longest run of digits at the front of [s], and what follows. *)
Fixpoint digits (s : jsstring) : jsstring * jsstring :=
  match s with
  | c :: s' =>
      if is_digit c then let (ds, rest) := digits s' in (c :: ds, rest)
      else ([], s)
  | [] => ([], [])
  end.

(** At least one digit. *)
Definition digits1 (s : jsstring) : outcome jsstring :=
  match digits s with
  | ([], _) => SyntaxError
  | (ds, rest) => Parsed ds rest
  end.

Definition lex_sign (s : jsstring) : jsstring * jsstring :=
  match s with
  | c :: s' => if (c =? 45)%N then ([c], s') else ([], s)
  | [] => ([], s)
  end.

Definition lex_int (s : jsstring) : outcome jsstring :=
  match s with
  | c :: s' =>
      if (c =? 48)%N then Parsed [c] s'
      else if is_digit c then let (ds, rest) := digits s' in Parsed (c :: ds) rest
      else SyntaxError
  | [] => SyntaxError
  end.

Definition lex_frac (s : jsstring) : outcome jsstring :=
  match s with
  | c :: s' =>
      if (c =? 46)%N then bind (digits1 s') (fun ds rest => Parsed (c :: ds) rest)
      else Parsed [] s
  | [] => Parsed [] s
  end.

Definition lex_exp (s : jsstring) : outcome jsstring :=
  match s with
  | c :: s' =>
      if ((c =? 101) || (c =? 69))%N then
        match s' with
        | g :: s'' =>
            if ((g =? 43) || (g =? 45))%N
            then bind (digits1 s'') (fun ds rest => Parsed (c :: g :: ds) rest)
            else bind (digits1 s') (fun ds rest => Parsed (c :: ds) rest)
        | [] => SyntaxError
        end
      else Parsed [] s
  | [] => Parsed [] s
  end.

(** A JSON number: sign, integer part, fraction, exponent. *)
Definition lex_number (s : jsstring) : outcome jsstring :=
  let (sign, s1) := lex_sign s in
  bind (lex_int s1) (fun i s2 =>
  bind (lex_frac s2) (fun f s3 =>
  bind (lex_exp s3) (fun e s4 =>
  Parsed (sign ++ i ++ f ++ e) s4))).

Definition keyword (A : Type) (word : jsstring) (a : A) (s : jsstring) : outcome A :=
  if starts_with word s then Parsed a (skipn (length word) s) else SyntaxError.

Fixpoint parse_value (fuel : nat) (s : jsstring) : outcome json :=
  match fuel with
  | O => OutOfFuel
  | S fuel' =>
      match skip_ws s with
      | [] => SyntaxError
      | c :: s1 =>
          if (c =? 34)%N then
            bind (parse_chars s1) (fun str rest => Parsed (JString str) rest)
          else if (c =? 91)%N then
            match skip_ws s1 with
            | d :: s2 =>
                if (d =? 93)%N then Parsed (JArray []) s2
                else bind (parse_elements fuel' s1) (fun vs rest => Parsed (JArray vs) rest)
            | [] => SyntaxError
            end
          else if (c =? 123)%N then
            match skip_ws s1 with
            | d :: s2 =>
                if (d =? 125)%N then Parsed (JObject []) s2
                else bind (parse_members fuel' s1) (fun kvs rest => Parsed (JObject kvs) rest)
            | [] => SyntaxError
            end
          else if (c =? 116)%N then keyword (lit "true") (JBool true) (c :: s1)
          else if (c =? 102)%N then keyword (lit "false") (JBool false) (c :: s1)
          else if (c =? 110)%N then keyword (lit "null") JNull (c :: s1)
          else if (c =? 45)%N || is_digit c then
            bind (lex_number (c :: s1)) (fun lx rest => Parsed (JNumber lx) rest)
          else SyntaxError
      end
  end

with parse_elements (fuel : nat) (s : jsstring) : outcome (list json) :=
  match fuel with
  | O => OutOfFuel
  | S fuel' =>
      bind (parse_value fuel' s) (fun v rest =>
        match skip_ws rest with
        | d :: r1 =>
            if (d =? 44)%N then
              bind (parse_elements fuel' r1) (fun vs r2 => Parsed (v :: vs) r2)
            else if (d =? 93)%N then Parsed [v] r1
            else SyntaxError
        | [] => SyntaxError
        end)
  end

with parse_members (fuel : nat) (s : jsstring) : outcome (list (jsstring * json)) :=
  match fuel with
  | O => OutOfFuel
  | S fuel' =>
      match skip_ws s with
      | q :: s1 =>
          if (q =? 34)%N then
            bind (parse_chars s1) (fun k rest =>
              match skip_ws rest with
              | c :: r1 =>
                  if (c =? 58)%N then
                    bind (parse_value fuel' r1) (fun v r2 =>
                      match skip_ws r2 with
                      | d :: r3 =>
                          if (d =? 44)%N then
                            bind (parse_members fuel' r3)
                              (fun kvs r4 => Parsed ((k, v) :: kvs) r4)
                          else if (d =? 125)%N then Parsed [(k, v)] r3
                          else SyntaxError
                      | [] => SyntaxError
                      end)
                  else SyntaxError
              | [] => SyntaxError
              end)
          else SyntaxError
      | [] => SyntaxError
      end
  end.

(** [JSON.parse(text)]: one value, then nothing but white space. *)
Definition parse (text : jsstring) : outcome json :=
  bind (parse_value (2 * length text + 2) text) (fun v rest =>
    match skip_ws rest with
    | [] => Parsed v []
    | _ :: _ => SyntaxError
    end).

(** The outcome is a value with less text left than [n] code units, or a
    SyntaxError: the parser did not run out of fuel. *)
Definition answers (A : Type) (n : nat) (x : outcome A) : Prop :=
  match x with
  | Parsed _ rest => length rest < n
  | SyntaxError => True
  | OutOfFuel => False
  end.

End Json.

(** ** The page *)

(** A turn of the conversation: [{ role, content }]. *)
Record Turn : Type := { role : jsstring; content : jsstring }.

(** How a message bubble received its content: through [textContent],
    which makes it one text node, or through [innerHTML], which hands the
    string to the HTML parser. *)
Inductive Body : Type :=
| TextContent (text : jsstring)
| InnerHTML (html : jsstring).

(** A [div] of the chat display. *)
Record Bubble : Type := { className : jsstring; body : Body }.

(** What the script does to the world outside the page's DOM, in the
    order it does it. *)
Inductive Effect : Type :=
| Pushed (t : Turn)               (* messages.push(t) *)
| Persisted (text : jsstring)     (* localStorage.setItem("gene_history", text) *)
| Removed                         (* localStorage.removeItem("gene_history") *)
| Requested (payload : jsstring)  (* fetch("/chat", { body: payload }) *)
| Responded.                      (* both awaits of sendMessage have resolved *)

Record Page : Type := {
  messages : list Turn;
  (** localStorage's entry under the key ["gene_history"] *)
  gene_history : option jsstring;
  (** children of [#chat-box] *)
  chatBox : list Bubble;
  userInput_value : jsstring;
  userInput_disabled : bool;
  sendBtn_disabled : bool;
  (** whether [#typing-indicator] carries the class [hidden]; [None] when
      the page has no such element and the script uses its stand-in *)
  typing_hidden : option bool;
  effects : list Effect
}.

(** The script as state-passing code. *)
Definition M (A : Type) : Type := Page -> A * Page.

Definition ret (A : Type) (a : A) : M A := fun p => (a, p).

Definition bind (A B : Type) (m : M A) (k : A -> M B) : M B :=
  fun p => let (a, p') := m p in k a p'.

Declare Scope script_scope.
Delimit Scope script_scope with script.
Notation "x <- m ;; k" := (bind m (fun x => k))
  (at level 61, m at next level, right associativity) : script_scope.
Notation "m ;; k" := (bind m (fun _ => k))
  (at level 61, right associativity) : script_scope.
Local Open Scope script_scope.

Definition run (A : Type) (m : M A) (p : Page) : Page := snd (m p).

Definition read (A : Type) (f : Page -> A) : M A := fun p => (f p, p).

Definition modify (f : Page -> Page) : M unit := fun p => (tt, f p).

Definition log (e : Effect) : M unit :=
  modify (fun p =>
    {| messages := messages p; gene_history := gene_history p; chatBox := chatBox p;
       userInput_value := userInput_value p; userInput_disabled := userInput_disabled p;
       sendBtn_disabled := sendBtn_disabled p; typing_hidden := typing_hidden p;
       effects := effects p ++ [e] |}).

Definition set_messages (v : list Turn) : M unit :=
  modify (fun p =>
    {| messages := v; gene_history := gene_history p; chatBox := chatBox p;
       userInput_value := userInput_value p; userInput_disabled := userInput_disabled p;
       sendBtn_disabled := sendBtn_disabled p; typing_hidden := typing_hidden p;
       effects := effects p |}).

Definition set_gene_history (v : option jsstring) : M unit :=
  modify (fun p =>
    {| messages := messages p; gene_history := v; chatBox := chatBox p;
       userInput_value := userInput_value p; userInput_disabled := userInput_disabled p;
       sendBtn_disabled := sendBtn_disabled p; typing_hidden := typing_hidden p;
       effects := effects p |}).

Definition set_chatBox (v : list Bubble) : M unit :=
  modify (fun p =>
    {| messages := messages p; gene_history := gene_history p; chatBox := v;
       userInput_value := userInput_value p; userInput_disabled := userInput_disabled p;
       sendBtn_disabled := sendBtn_disabled p; typing_hidden := typing_hidden p;
       effects := effects p |}).

Definition set_userInput_value (v : jsstring) : M unit :=
  modify (fun p =>
    {| messages := messages p; gene_history := gene_history p; chatBox := chatBox p;
       userInput_value := v; userInput_disabled := userInput_disabled p;
       sendBtn_disabled := sendBtn_disabled p; typing_hidden := typing_hidden p;
       effects := effects p |}).

Definition set_userInput_disabled (v : bool) : M unit :=
  modify (fun p =>
    {| messages := messages p; gene_history := gene_history p; chatBox := chatBox p;
       userInput_value := userInput_value p; userInput_disabled := v;
       sendBtn_disabled := sendBtn_disabled p; typing_hidden := typing_hidden p;
       effects := effects p |}).

Definition set_sendBtn_disabled (v : bool) : M unit :=
  modify (fun p =>
    {| messages := messages p; gene_history := gene_history p; chatBox := chatBox p;
       userInput_value := userInput_value p; userInput_disabled := userInput_disabled p;
       sendBtn_disabled := v; typing_hidden := typing_hidden p;
       effects := effects p |}).

(** [typingIndicator.classList.add("hidden")] and [.remove("hidden")]; the
    stand-in object ignores both. *)
Definition set_typing_hidden (v : bool) : M unit :=
  modify (fun p =>
    {| messages := messages p; gene_history := gene_history p; chatBox := chatBox p;
       userInput_value := userInput_value p; userInput_disabled := userInput_disabled p;
       sendBtn_disabled := sendBtn_disabled p;
       typing_hidden := option_map (fun _ => v) (typing_hidden p);
       effects := effects p |}).

(** *** Conversation store *)

Definition json_of_turn (t : Turn) : Json.json :=
  Json.JObject [(lit "role", Json.JString (role t));
                (lit "content", Json.JString (content t))].

(** The [messages] array as a JavaScript value. *)
Definition json_of_messages (ms : list Turn) : Json.json :=
  Json.JArray (List.map json_of_turn ms).

(** [localStorage.getItem("gene_history") || "[]"]: a missing entry reads
    as [null], and [null] and the empty string are falsy. *)
Definition history_text (stored : option jsstring) : jsstring :=
  match stored with
  | Some text => or_else text (lit "[]")
  | None => lit "[]"
  end.

(** [let messages = JSON.parse(localStorage.getItem("gene_history") || "[]")]
    (line 25) *)
Definition restore (stored : option jsstring) : Json.outcome Json.json :=
  Json.parse (history_text stored).

Definition MAX_CONTEXT_MESSAGES : Z := 20.

(** [function getLlmMessages() { return messages.slice(-MAX_CONTEXT_MESSAGES); }]
    (lines 34-38) *)
Definition getLlmMessages : M (list Turn) :=
  ms <- read messages ;;
  ret (Array_slice (- MAX_CONTEXT_MESSAGES) ms).

(** [function saveHistory()] (lines 192-194) *)
Definition saveHistory : M unit :=
  ms <- read messages ;;
  let text := Json.stringify (json_of_messages ms) in
  set_gene_history (Some text) ;;
  log (Persisted text).

(** [messages.push(t)] *)
Definition push (t : Turn) : M unit :=
  ms <- read messages ;;
  set_messages (ms ++ [t]) ;;
  log (Pushed t).

(** [clearChatBtn.onclick] (lines 168-172) *)
Definition clearChat : M unit :=
  set_messages [] ;;
  set_gene_history None ;;
  log Removed ;;
  set_chatBox [].

(** The body of the POST request: [JSON.stringify({ messages: llmMessages })]
    (line 107). *)
Definition request_body (llmMessages : list Turn) : jsstring :=
  Json.stringify (Json.JObject [(lit "messages", json_of_messages llmMessages)]).

(** What comes back from [await fetch(...)] and [await res.json()] (lines
    104-110): the fetch is rejected, the body is not JSON, or the body is an
    object that follows the interface [{ reply?: string, html?: string }].
    A field that is missing or [null] is [None]. *)
Record ChatData : Type := { reply : option jsstring; html : option jsstring }.

Inductive Response : Type :=
| NetworkError
| MalformedBody
| Data (data : ChatData).

(** JavaScript truthiness of an optional string field: [undefined] and the
    empty string are falsy. *)
Definition truthy (field : option jsstring) : option jsstring :=
  match field with
  | Some (c :: s) => Some (c :: s)
  | _ => None
  end.

Definition user_bubble (text : jsstring) : Bubble :=
  {| className := lit "message user"; body := TextContent text |}.

Section Script.

(** [marked.parse], configured once at load time. *)
Variable marked_parse : jsstring -> jsstring.

(** [let html = containsHTML ? content : marked.parse(content || "")]
    (lines 55-57) *)
Definition raw_or_markdown (content : jsstring) : jsstring :=
  if containsHTML content then content
  else marked_parse (or_else content (lit "")).

(** The markup an assistant bubble receives: [html] after the image fix. *)
Definition assistant_html (content : jsstring) : jsstring :=
  fix_images (raw_or_markdown content).

(** [function renderMessage(role, content)] (lines 44-72).  The copy
    buttons added after a timeout and the scrolling do not change what is
    modelled here. *)
Definition renderMessage (role content : jsstring) : M unit :=
  let is_user := jsstring_eqb role (lit "user") in
  let div :=
    {| className := lit "message " ++ (if is_user then lit "user" else lit "assistant");
       body :=
         if is_user then TextContent content
         else InnerHTML (assistant_html content) |} in
  kids <- read chatBox ;;
  set_chatBox (kids ++ [div]).

(** [sendMessage], from its start to the call of [fetch] (lines 86-108):
    the request body when a request was issued. *)
Definition sendMessage : M (option jsstring) :=
  value <- read userInput_value ;;
  let text := trim value in
  match text with
  | [] => ret None
  | _ :: _ =>
      set_sendBtn_disabled true ;;
      set_userInput_disabled true ;;
      renderMessage (lit "user") text ;;
      push {| role := lit "user"; content := text |} ;;
      saveHistory ;;
      set_userInput_value (lit "") ;;
      set_typing_hidden false ;;
      llmMessages <- getLlmMessages ;;
      let payload := request_body llmMessages in
      log (Requested payload) ;;
      ret (Some payload)
  end.

(** The rest of [sendMessage] (lines 110-127), run when the awaited
    promises settle.  A rejected promise ends the function there: nothing
    after the [await] runs and the script has no handler for the
    rejection. *)
Definition sendMessage_resume (r : Response) : M unit :=
  match r with
  | NetworkError => ret tt
  | MalformedBody => ret tt
  | Data data =>
      log Responded ;;
      set_typing_hidden true ;;
      match truthy (reply data) with
      | Some text =>
          renderMessage (lit "assistant") text ;;
          push {| role := lit "assistant"; content := text |}
      | None => ret tt
      end ;;
      match truthy (html data) with
      | Some markup => renderMessage (lit "assistant") markup
      | None => ret tt
      end ;;
      saveHistory ;;
      set_sendBtn_disabled false ;;
      set_userInput_disabled false
  end.

(** [messages.forEach(m => renderMessage(m.role, m.content))] (line 28) *)
Fixpoint renderHistory (ms : list Turn) : M unit :=
  match ms with
  | [] => ret tt
  | m :: rest => renderMessage (role m) (content m) ;; renderHistory rest
  end.

(** What can happen to a loaded page: the user edits the input, submits
    (click or Enter), clears the chat, or a pending request settles. *)
Inductive Event : Type :=
| Typed (value : jsstring)
| Submit
| Clear
| Settled (r : Response).

Definition handle (e : Event) : M unit :=
  match e with
  | Typed value => set_userInput_value value
  | Submit => sendMessage ;; ret tt
  | Clear => clearChat
  | Settled r => sendMessage_resume r
  end.

(** The page once the top level of the script has run, when the stored
    history read back as the turns [ms]: the conversation is [ms], each
    turn has its bubble, nothing is typed and the controls are enabled.
    [indicator] says whether the page has a typing indicator and whether
    it starts hidden. *)
Definition page_at_load (stored : option jsstring) (ms : list Turn)
    (indicator : option bool) : Page :=
  run (renderHistory ms)
    {| messages := ms; gene_history := stored; chatBox := [];
       userInput_value := lit ""; userInput_disabled := false;
       sendBtn_disabled := false; typing_hidden := indicator; effects := [] |}.

(** The pages a session can go through from [start]. *)
Inductive reachable (start : Page) : Page -> Prop :=
| reach_start : reachable start start
| reach_step e p : reachable start p -> reachable start (run (handle e) p).

Definition assistant_bubble (text : jsstring) : Bubble :=
  {| className := lit "message assistant";
     body := InnerHTML (assistant_html text) |}.

(** The bubble [renderMessage] makes for a turn. *)
Definition bubble_of (m : Turn) : Bubble :=
  if jsstring_eqb (role m) (lit "user") then user_bubble (content m)
  else assistant_bubble (content m).

(** The bubbles a response adds to the chat display. *)
Definition response_bubbles (data : ChatData) : list Bubble :=
  match truthy (reply data) with Some text => [assistant_bubble text] | None => [] end
  ++ match truthy (html data) with Some markup => [assistant_bubble markup] | None => [] end.

End Script.

(** ** Vocabulary of the specification *)

(** [needle] occurs in [hay]. *)
Definition occurs (needle hay : jsstring) : Prop :=
  exists pre post, hay = pre ++ needle ++ post.

(** [String.prototype.includes] *)
Fixpoint includes (needle hay : jsstring) : bool :=
  starts_with needle hay ||
  match hay with
  | [] => false
  | _ :: hay' => includes needle hay'
  end.

(** The heuristic in the specification's words: a [<] followed by a
    letter, anywhere in the string. *)
Definition lt_then_letter (s : jsstring) : Prop :=
  exists pre l post, s = pre ++ [LT; l] ++ post /\ is_ascii_letter l = true.

(** What the pattern asks for: a [<], an optional [/], a letter, and a
    [>] somewhere after the letter. *)
Definition tag_shaped (s : jsstring) : Prop :=
  exists pre slash l mid post,
    s = pre ++ [LT] ++ slash ++ [l] ++ mid ++ [GT] ++ post
    /\ (slash = [] \/ slash = [SLASH])
    /\ is_ascii_letter l = true.

(** The text the next page load would parse is the serialization of the
    conversation in memory. *)
Definition reconciled (p : Page) : Prop :=
  history_text (gene_history p) = Json.stringify (json_of_messages (messages p)).

Definition user_turn (text : jsstring) : Turn :=
  {| role := lit "user"; content := text |}.

Definition assistant_turn (text : jsstring) : Turn :=
  {| role := lit "assistant"; content := text |}.

(** The turn a reply field adds to the conversation, if any. *)
Definition reply_turns (reply : option jsstring) : list Turn :=
  match truthy reply with
  | Some text => [assistant_turn text]
  | None => []
  end.

(** The request a submit issues: the serialized context window. *)
Definition payload_for (ms : list Turn) : jsstring :=
  request_body (Array_slice (- MAX_CONTEXT_MESSAGES) ms).

(** A rejected fetch or a body that is not JSON. *)
Definition is_failure (r : Response) : bool :=
  match r with
  | Data _ => false
  | _ => true
  end.

(** A page just loaded with no history, nothing typed and the typing
    indicator hidden. *)
Definition fresh_page : Page :=
  {| messages := []; gene_history := None; chatBox := [];
     userInput_value := []; userInput_disabled := false; sendBtn_disabled := false;
     typing_hidden := Some true; effects := [] |}.

(** ** Example data *)

(** A markdown renderer that wraps its input in a paragraph: enough to run
    the script on examples. *)
Definition paragraph (s : jsstring) : jsstring := lit "<p>" ++ s ++ lit "</p>".

(** The fresh page with [value] typed into the input. *)
Definition typed (value : jsstring) : Page :=
  run (set_userInput_value value) fresh_page.

Definition hi_there : ChatData :=
  {| reply := Some (lit "hi there");
     html := Some (lit "<iframe src='viewer'></iframe>") |}.

(** ** The rest of the script *)

(** A run of events on a page, handled one after the other. *)
Definition session (marked_parse : jsstring -> jsstring) (es : list Event) (p : Page) : Page :=
  fold_left (fun q e => run (handle marked_parse e) q) es p.




(** A turn as the script makes them: from the user or the assistant, with
    something in it. *)
Definition well_formed_turn (t : Turn) : Prop :=
  (role t = lit "user" \/ role t = lit "assistant") /\ content t <> [].

(** *** Loading *)

(** A parsed value as a turn: an object with the members [role] and
    [content], in that order, both strings, as [saveHistory] writes
    them. *)
Definition turn_of_json (j : Json.json) : option Turn :=
  match j with
  | Json.JObject [(k1, Json.JString r); (k2, Json.JString c)] =>
      if jsstring_eqb k1 (lit "role") && jsstring_eqb k2 (lit "content")
      then Some {| role := r; content := c |}
      else None
  | _ => None
  end.

Fixpoint turns_of_json (items : list Json.json) : option (list Turn) :=
  match items with
  | [] => Some []
  | j :: rest =>
      match turn_of_json j, turns_of_json rest with
      | Some t, Some ts => Some (t :: ts)
      | _, _ => None
      end
  end.

(** How the top level of the script ends (lines 25-28): with a page; with
    the SyntaxError of [JSON.parse]; with the TypeError of calling
    [forEach] on a value that is not an array; or, for an array that holds
    something else than turns, in a way that is not followed here. *)
Inductive Load : Type :=
| Loaded (p : Page)
| SyntaxErrorThrown
| TypeErrorThrown
| NotTurns (items : list Json.json).

(** Lines 25-28 on the page as the document gives it: [messages] is what
    the stored entry parses to, and each turn is rendered.  ([OutOfFuel]
    does not occur.) *)
Definition load (marked_parse : jsstring -> jsstring) (document : Page) : Load :=
  match restore (gene_history document) with
  | Json.Parsed (Json.JArray items) _ =>
      match turns_of_json items with
      | Some ms => Loaded (run (set_messages ms ;; renderHistory marked_parse ms) document)
      | None => NotTurns items
      end
  | Json.Parsed _ _ => TypeErrorThrown
  | Json.SyntaxError => SyntaxErrorThrown
  | Json.OutOfFuel => SyntaxErrorThrown
  end.

(** The page before the script runs, when the document comes with an
    empty chat, an empty input and enabled controls. *)
Definition document_at_load (stored : option jsstring) (indicator : option bool) : Page :=
  {| messages := []; gene_history := stored; chatBox := [];
     userInput_value := lit ""; userInput_disabled := false;
     sendBtn_disabled := false; typing_hidden := indicator; effects := [] |}.

(** The [keydown] event, as far as the listener reads it, with the other
    modifier keys it does not read. *)
Record KeyboardEvent : Type := {
  key : jsstring;
  shiftKey : bool;
  ctrlKey : bool;
  altKey : bool;
  metaKey : bool
}.

Section Listeners.

Variable marked_parse : jsstring -> jsstring.

(** The [keydown] listener of the input (lines 202-207): whether it called
    [preventDefault], and the request [sendMessage] issued, if any. *)
Definition onKeydown (e : KeyboardEvent) : M (bool * option jsstring) :=
  if jsstring_eqb (key e) (lit "Enter") && negb (shiftKey e)
  then request <- sendMessage marked_parse ;; ret (true, request)
  else ret (false, None).

End Listeners.

(** *** Theme *)

(** [classList.contains(token)] *)
Definition classList_contains (token : jsstring) (classes : list jsstring) : bool :=
  existsb (jsstring_eqb token) classes.

(** [classList.toggle(token)]: the token is removed when it is there and
    appended when it is not. *)
Definition classList_toggle (token : jsstring) (classes : list jsstring) : list jsstring :=
  if classList_contains token classes
  then filter (fun c => negb (jsstring_eqb token c)) classes
  else classes ++ [token].

(** What the theme toggle touches: the class list of [document.body] and
    its own text. *)
Record Theme : Type := {
  body_classList : list jsstring;
  themeToggle_textContent : jsstring
}.

(** U+2600 U+FE0F and U+1F319 in UTF-16. *)
Definition SUN : jsstring := [9728; 65039]%N.
Definition MOON : jsstring := [55356; 57113]%N.

(** [themeToggle.onclick] (lines 180-185) *)
Definition themeToggle_onclick (t : Theme) : Theme :=
  let classes := classList_toggle (lit "light") (body_classList t) in
  {| body_classList := classes;
     themeToggle_textContent :=
       if classList_contains (lit "light") classes then SUN else MOON |}.

(** *** Copy buttons *)

(** A DOM subtree as [addCopyButtons] sees it: text, and elements with
    their local name, their class list and their children. *)
Inductive Node : Type :=
| TextNode (data : jsstring)
| Element (localName : jsstring) (classList : list jsstring) (childNodes : list Node).

(** A node of a tree is referred to by the child indexes that lead to it
    from the root.  The script holds references to nodes of a tree it
    changes; appending a child to a node leaves every index valid. *)
Definition NodeRef : Type := list nat.

(** The type selector [name]. *)
Definition is_element_named (name : jsstring) (n : Node) : bool :=
  match n with
  | TextNode _ => false
  | Element localName _ _ => jsstring_eqb localName name
  end.

(** The class selector [.token]. *)
Definition has_class (token : jsstring) (n : Node) : bool :=
  match n with
  | TextNode _ => false
  | Element _ classList _ => classList_contains token classList
  end.

(** [parent.querySelectorAll(selector)]: the descendants of [parent] that
    match, in document order. *)
Fixpoint querySelectorAll (selector : Node -> bool) (parent : Node) : list NodeRef :=
  match parent with
  | TextNode _ => []
  | Element _ _ kids =>
      (fix children (i : nat) (kids : list Node) {struct kids} : list NodeRef :=
         match kids with
         | [] => []
         | kid :: rest =>
             (if selector kid then [[i]] else [])
             ++ List.map (cons i) (querySelectorAll selector kid)
             ++ children (S i) rest
         end) 0 kids
  end.

(** [parent.querySelector(selector)]: the first match, or null. *)
Definition querySelector (selector : Node -> bool) (parent : Node) : option NodeRef :=
  hd_error (querySelectorAll selector parent).

Fixpoint update_nth (A : Type) (i : nat) (f : A -> A) (l : list A) : list A :=
  match l, i with
  | [], _ => []
  | a :: l', 0 => f a :: l'
  | a :: l', S i' => a :: update_nth i' f l'
  end.

(** The node a reference leads to. *)
Fixpoint node_at (ref : NodeRef) (root : Node) : option Node :=
  match ref with
  | [] => Some root
  | i :: ref' =>
      match root with
      | TextNode _ => None
      | Element _ _ kids =>
          match nth_error kids i with
          | Some kid => node_at ref' kid
          | None => None
          end
      end
  end.

(** The tree after the node a reference leads to was changed by [f]. *)
Fixpoint update_at (f : Node -> Node) (ref : NodeRef) (root : Node) : Node :=
  match ref with
  | [] => f root
  | i :: ref' =>
      match root with
      | TextNode _ => root
      | Element localName classList kids =>
          Element localName classList (update_nth i (update_at f ref') kids)
      end
  end.

(** [parent.appendChild(child)] *)
Definition appendChild (child : Node) (parent : Node) : Node :=
  match parent with
  | TextNode _ => parent
  | Element localName classList kids => Element localName classList (kids ++ [child])
  end.

(** The button of lines 139-141. *)
Definition copy_button : Node :=
  Element (lit "button") [lit "copy-btn"] [TextNode (lit "Copy")].

(** The body of the [forEach] of lines 136-150, on the tree as it is when
    [block] is visited. *)
Definition addCopyButton (tree : Node) (block : NodeRef) : Node :=
  match node_at block tree with
  | Some pre =>
      match querySelector (has_class (lit "copy-btn")) pre with
      | Some _ => tree
      | None => update_at (appendChild copy_button) block tree
      end
  | None => tree
  end.

(** [function addCopyButtons(parent)] (lines 134-151): [parent] afterwards.
    The list of blocks is taken once, before the loop. *)
Definition addCopyButtons (parent : Node) : Node :=
  let blocks := querySelectorAll (is_element_named (lit "pre")) parent in
  fold_left addCopyButton blocks parent.

(** One visit of a tree that gives each [pre] without a [.copy-btn] inside
    it a button as its new last child: the node itself included in
    [with_button], its descendants only in [with_buttons_inside]. *)
Fixpoint with_button (n : Node) : Node :=
  match n with
  | TextNode _ => n
  | Element localName classList kids =>
      let kids' := List.map with_button kids in
      if is_element_named (lit "pre") n
      then match querySelector (has_class (lit "copy-btn")) n with
           | Some _ => Element localName classList kids'
           | None => Element localName classList (kids' ++ [copy_button])
           end
      else Element localName classList kids'
  end.

Definition with_buttons_inside (parent : Node) : Node :=
  match parent with
  | TextNode _ => parent
  | Element localName classList kids =>
      Element localName classList (List.map with_button kids)
  end.

(** The matches among [kids] and below them, [kids] being the children
    from index [i] on. *)
Fixpoint children_matching (selector : Node -> bool) (i : nat) (kids : list Node)
    : list NodeRef :=
  match kids with
  | [] => []
  | kid :: rest =>
      (if selector kid then [[i]] else [])
      ++ List.map (cons i) (querySelectorAll selector kid)
      ++ children_matching selector (S i) rest
  end.

(** Whether some descendant matches. *)
Fixpoint contains_matching (selector : Node -> bool) (n : Node) : bool :=
  match n with
  | TextNode _ => false
  | Element _ _ kids =>
      existsb (fun kid => selector kid || contains_matching selector kid) kids
  end.

(** The descendants of a node, in document order. *)
Fixpoint descendants (n : Node) : list Node :=
  match n with
  | TextNode _ => []
  | Element _ _ kids => flat_map (fun kid => kid :: descendants kid) kids
  end.

(** The blocks the loop visits in a subtree when its root is a candidate
    too: the root first, then its descendants. *)
Definition visits (n : Node) : list NodeRef :=
  (if is_element_named (lit "pre") n then [[]] else [])
  ++ querySelectorAll (is_element_named (lit "pre")) n.

(** * Properties *)

(** Boolean tests on code units as propositions, for [lia]. *)
Ltac N_props :=
  repeat match goal with
    | H : (_ <? _)%N = true |- _ => apply N.ltb_lt in H
    | H : (_ <? _)%N = false |- _ => apply N.ltb_ge in H
    | H : (_ <=? _)%N = true |- _ => apply N.leb_le in H
    | H : (_ <=? _)%N = false |- _ => apply N.leb_gt in H
    | H : (_ =? _)%N = true |- _ => apply N.eqb_eq in H
    | H : (_ =? _)%N = false |- _ => apply N.eqb_neq in H
    | H : _ && _ = true |- _ => apply andb_true_iff in H as [? ?]
    | H : _ || _ = false |- _ => apply orb_false_iff in H as [? ?]
    end.

(** ** The pattern matcher agrees with the language of the pattern *)

Module RegexFacts.
Import Regex.

#[local] Hint Constructors matches : core.

Lemma cat_inv (r1 r2 : regex) (s : jsstring) :
  matches (Cat r1 r2) s ->
  exists s1 s2, s = s1 ++ s2 /\ matches r1 s1 /\ matches r2 s2.
Proof. intro H. inversion H; subst. eauto. Qed.

Lemma alt_inv (r1 r2 : regex) (s : jsstring) :
  matches (Alt r1 r2) s -> matches r1 s \/ matches r2 s.
Proof. intro H. inversion H; subst; auto. Qed.

Lemma class_inv (p : code_unit -> bool) (s : jsstring) :
  matches (Class p) s -> exists c, s = [c] /\ p c = true.
Proof. intro H. inversion H; subst. eauto. Qed.

Lemma eps_inv (s : jsstring) : matches Eps s -> s = [].
Proof. intro H. inversion H; subst. reflexivity. Qed.

Lemma chr_inv (c : code_unit) (s : jsstring) : matches (Chr c) s -> s = [c].
Proof.
  intro H. apply class_inv in H as (x & -> & E).
  apply N.eqb_eq in E. subst. reflexivity.
Qed.

Lemma chr_matches (c : code_unit) : matches (Chr c) [c].
Proof. constructor. apply N.eqb_refl. Qed.

(** [[\s\S]*] matches every string. *)
Lemma star_any (s : jsstring) : matches (Star (Class (fun _ => true))) s.
Proof.
  induction s as [|c s IH]; [constructor|].
  change (c :: s) with ([c] ++ s). constructor; [constructor; reflexivity | assumption].
Qed.

Lemma nullable_matches (r : regex) : nullable r = true <-> matches r [].
Proof.
  induction r; simpl; split; intro H; auto; try discriminate.
  - inversion H.
  - inversion H.
  - apply andb_true_iff in H as [H1 H2].
    change (@nil code_unit) with (@nil code_unit ++ []).
    constructor; [apply IHr1 | apply IHr2]; assumption.
  - apply cat_inv in H as (s1 & s2 & E & M1 & M2). symmetry in E.
    apply app_eq_nil in E as [-> ->].
    apply andb_true_iff; split; [apply IHr1 | apply IHr2]; assumption.
  - apply orb_true_iff in H as [H | H]; [apply m_alt_l, IHr1 | apply m_alt_r, IHr2]; assumption.
  - apply orb_true_iff.
    apply alt_inv in H as [H | H]; [left; apply IHr1 | right; apply IHr2]; assumption.
Qed.

(** A non-empty match of [r*] starts with a non-empty match of [r]. *)
Lemma star_cons (r : regex) (c : code_unit) (s : jsstring) :
  matches (Star r) (c :: s) ->
  exists s1 s2, s = s1 ++ s2 /\ matches r (c :: s1) /\ matches (Star r) s2.
Proof.
  intro H. remember (Star r) as r' eqn:Er. remember (c :: s) as t eqn:Et.
  revert s Et. induction H; intros t' Et; try discriminate.
  injection Er as ->.
  destruct s1 as [|x s1].
  - simpl in Et. apply IHmatches2; auto.
  - simpl in Et. injection Et as -> <-. exists s1, s2. auto.
Qed.

Lemma deriv_matches (r : regex) (c : code_unit) (s : jsstring) :
  matches (deriv c r) s <-> matches r (c :: s).
Proof.
  revert s. induction r; intro s; simpl.
  - split; intro H; inversion H.
  - split; intro H; inversion H.
  - destruct (p c) eqn:Ep; split; intro H.
    + inversion H; subst. constructor; assumption.
    + inversion H; subst. constructor.
    + inversion H.
    + inversion H; subst. congruence.
  - assert (Hcat : forall t, matches (Cat (deriv c r1) r2) t ->
                             matches (Cat r1 r2) (c :: t)).
    { intros t H. apply cat_inv in H as (s1 & s2 & -> & M1 & M2).
      apply IHr1 in M1. change (c :: s1 ++ s2) with ((c :: s1) ++ s2). auto. }
    assert (Hsplit : forall t, matches (Cat r1 r2) (c :: t) ->
              matches (Cat (deriv c r1) r2) t \/
              (matches r1 [] /\ matches r2 (c :: t))).
    { intros t H. apply cat_inv in H as (s1 & s2 & E & M1 & M2).
      destruct s1 as [|x s1]; simpl in E.
      - subst s2. right; auto.
      - injection E as <- ->. left. constructor; [apply IHr1|]; assumption. }
    destruct (nullable r1) eqn:En; split; intro H.
    + apply alt_inv in H as [H | H]; [auto|].
      apply nullable_matches in En. apply IHr2 in H.
      change (c :: s) with ([] ++ c :: s). auto.
    + apply Hsplit in H as [H | [_ H]]; [apply m_alt_l | apply m_alt_r, IHr2]; assumption.
    + auto.
    + apply Hsplit in H as [H | [H _]]; [assumption|].
      apply nullable_matches in H. congruence.
  - split; intro H; apply alt_inv in H as [H | H].
    + apply m_alt_l, IHr1; assumption.
    + apply m_alt_r, IHr2; assumption.
    + apply m_alt_l, IHr1; assumption.
    + apply m_alt_r, IHr2; assumption.
  - split; intro H.
    + apply cat_inv in H as (s1 & s2 & -> & M1 & M2).
      apply IHr in M1. change (c :: s1 ++ s2) with ((c :: s1) ++ s2). auto.
    + apply star_cons in H as (s1 & s2 & -> & M1 & M2).
      constructor; [apply IHr|]; assumption.
Qed.

Lemma match_here_spec (r : regex) (s : jsstring) :
  match_here r s = true <-> exists s1 s2, s = s1 ++ s2 /\ matches r s1.
Proof.
  revert r. induction s as [|c s IH]; intro r; simpl.
  - rewrite orb_false_r, nullable_matches. split.
    + intro H. exists [], []. auto.
    + intros (s1 & s2 & E & H). symmetry in E.
      apply app_eq_nil in E as [-> _]. assumption.
  - rewrite orb_true_iff, nullable_matches, IH. split.
    + intros [H | (s1 & s2 & -> & H)].
      * exists [], (c :: s). auto.
      * exists (c :: s1), s2. split; [reflexivity|]. apply deriv_matches; assumption.
    + intros (s1 & s2 & E & H). destruct s1 as [|x s1].
      * left; assumption.
      * simpl in E. injection E as <- ->. right.
        exists s1, s2. split; [reflexivity|]. apply deriv_matches; assumption.
Qed.

(** [test] finds a match exactly when some substring is in the language. *)
Lemma test_spec (r : regex) (s : jsstring) :
  test r s = true <->
  exists pre mid post, s = pre ++ mid ++ post /\ matches r mid.
Proof.
  induction s as [|c s IH].
  - simpl. rewrite !orb_false_r, nullable_matches. split.
    + intro H. exists [], [], []. auto.
    + intros (pre & mid & post & E & H). symmetry in E.
      apply app_eq_nil in E as [_ E]. apply app_eq_nil in E as [-> _]. assumption.
  - change (test r (c :: s)) with (match_here r (c :: s) || test r s).
    rewrite orb_true_iff, match_here_spec, IH. split.
    + intros [(s1 & s2 & E & H) | (pre & mid & post & -> & H)].
      * exists [], s1, s2. auto.
      * exists (c :: pre), mid, post. auto.
    + intros (pre & mid & post & E & H). destruct pre as [|x pre].
      * left. exists mid, post. auto.
      * simpl in E. injection E as <- ->. right. exists pre, mid, post. auto.
Qed.

(** *** Literal replacement *)

Lemma starts_with_app (a s : jsstring) :
  starts_with a s = true <-> exists t, s = a ++ t.
Proof.
  revert s. induction a as [|x a IH]; intro s; simpl.
  - split; eauto.
  - destruct s as [|y s].
    + split; [discriminate | intros (t & E); discriminate].
    + rewrite andb_true_iff, N.eqb_eq, IH. split.
      * intros (-> & t & ->). eauto.
      * intros (t & E). injection E as -> ->. eauto.
Qed.

Lemma starts_with_prefix (a t : jsstring) : starts_with a (a ++ t) = true.
Proof. apply starts_with_app. eauto. Qed.

Lemma replace_from_skip (pat repl : jsstring) (k : nat) (s : jsstring) :
  replace_from pat repl k s = replace_global pat repl (skipn k s).
Proof.
  revert k. induction s as [|c s IH]; intro k.
  - destruct k; reflexivity.
  - destruct k as [|k]; [reflexivity|]. simpl. apply IH.
Qed.

(** At a match the replacement is written and the scan goes on after it. *)
Lemma replace_global_match (pat repl t : jsstring) :
  pat <> [] ->
  replace_global pat repl (pat ++ t) = repl ++ replace_global pat repl t.
Proof.
  intro Hne. destruct pat as [|x pat]; [congruence|].
  unfold replace_global at 1.
  change ((x :: pat) ++ t) with (x :: (pat ++ t)).
  cbn [replace_from].
  change (x :: pat ++ t) with ((x :: pat) ++ t).
  rewrite starts_with_prefix, replace_from_skip.
  replace (length (x :: pat) - 1) with (length pat) by (simpl; lia).
  rewrite skipn_app, skipn_all, Nat.sub_diag. reflexivity.
Qed.

(** Elsewhere the code unit is copied. *)
Lemma replace_global_copy (pat repl : jsstring) (c : code_unit) (s : jsstring) :
  starts_with pat (c :: s) = false ->
  replace_global pat repl (c :: s) = c :: replace_global pat repl s.
Proof.
  intro H. unfold replace_global. cbn [replace_from]. rewrite H. reflexivity.
Qed.

End RegexFacts.

(** ** The renderer *)

Lemma html_tag_pattern_spec (mid : jsstring) :
  Regex.matches html_tag_pattern mid <->
  exists slash l inner,
    mid = [LT] ++ slash ++ [l] ++ inner ++ [GT]
    /\ (slash = [] \/ slash = [SLASH])
    /\ is_ascii_letter l = true.
Proof.
  unfold html_tag_pattern, Regex.Opt. split.
  - intro H.
    apply RegexFacts.cat_inv in H as (a & t1 & -> & Ha & H).
    apply RegexFacts.cat_inv in H as (b & t2 & -> & Hb & H).
    apply RegexFacts.cat_inv in H as (c & t3 & -> & Hc & H).
    apply RegexFacts.cat_inv in H as (d & e & -> & _ & He).
    apply RegexFacts.chr_inv in Ha, He. subst a e.
    apply RegexFacts.class_inv in Hc as (l & -> & Hl).
    exists b, l, d. split; [reflexivity|]. split; [|assumption].
    apply RegexFacts.alt_inv in Hb as [Hb | Hb].
    + right. apply RegexFacts.chr_inv in Hb. assumption.
    + left. apply RegexFacts.eps_inv in Hb. assumption.
  - intros (slash & l & inner & -> & Hs & Hl).
    repeat apply Regex.m_cat.
    + apply RegexFacts.chr_matches.
    + destruct Hs as [-> | ->].
      * apply Regex.m_alt_r. constructor.
      * apply Regex.m_alt_l. apply RegexFacts.chr_matches.
    + constructor. assumption.
    + apply RegexFacts.star_any.
    + apply RegexFacts.chr_matches.
Qed.

(** The test of [renderMessage] succeeds exactly on the strings that hold
    a [<], an optional [/], a letter and, later, a [>]. *)
Lemma containsHTML_spec (content : jsstring) :
  containsHTML content = true <-> tag_shaped content.
Proof.
  unfold containsHTML, tag_shaped. rewrite RegexFacts.test_spec. split.
  - intros (pre & mid & post & -> & H).
    apply html_tag_pattern_spec in H as (slash & l & inner & -> & Hs & Hl).
    exists pre, slash, l, inner, post. repeat split; try assumption.
    rewrite <- !app_assoc. reflexivity.
  - intros (pre & slash & l & inner & post & -> & Hs & Hl).
    exists pre, ([LT] ++ slash ++ [l] ++ inner ++ [GT]), post. split.
    + rewrite <- !app_assoc. reflexivity.
    + apply html_tag_pattern_spec. exists slash, l, inner. auto.
Qed.

(** *** Image restyling *)

Lemma img_open_cons : img_open = LT :: lit "img ".
Proof. reflexivity. Qed.

(** The only [<] of the replacement text is its first code unit. *)
Lemma no_lt_after_first :
  ~ In LT (lit "img " ++ img_style).
Proof.
  assert (H : forallb (fun c => negb (N.eqb c LT)) (lit "img " ++ img_style) = true)
    by (vm_compute; reflexivity).
  rewrite forallb_forall in H. intro Hin. apply H in Hin.
  rewrite N.eqb_refl in Hin. discriminate.
Qed.

Lemma img_replacement_cons :
  img_open ++ img_style = LT :: (lit "img " ++ img_style).
Proof. reflexivity. Qed.

Lemma fix_images_nil : fix_images [] = [].
Proof. reflexivity. Qed.

Lemma fix_images_match (t : jsstring) :
  fix_images (img_open ++ t) = img_open ++ img_style ++ fix_images t.
Proof.
  unfold fix_images. rewrite RegexFacts.replace_global_match by discriminate.
  rewrite <- app_assoc. reflexivity.
Qed.

Lemma fix_images_copy (c : code_unit) (s : jsstring) :
  starts_with img_open (c :: s) = false ->
  fix_images (c :: s) = c :: fix_images s.
Proof. apply RegexFacts.replace_global_copy. Qed.

(** Every non-empty input either starts with a match or has its first code
    unit copied. *)
Lemma fix_images_cases (c : code_unit) (s : jsstring) :
  (exists t, c :: s = img_open ++ t
             /\ fix_images (c :: s) = img_open ++ img_style ++ fix_images t)
  \/ (starts_with img_open (c :: s) = false
      /\ fix_images (c :: s) = c :: fix_images s).
Proof.
  destruct (starts_with img_open (c :: s)) eqn:E.
  - left. apply RegexFacts.starts_with_app in E as (t & E).
    exists t. split; [assumption|]. rewrite E. apply fix_images_match.
  - right. split; [reflexivity|]. apply fix_images_copy; assumption.
Qed.

(** A run without [<] at the front of the output was copied from the
    front of the input. *)
Lemma fix_images_plain_prefix (u t rest : jsstring) :
  ~ In LT u ->
  fix_images t = u ++ rest ->
  exists t', t = u ++ t' /\ rest = fix_images t'.
Proof.
  revert t. induction u as [|a u IH]; intros t Hu H.
  - exists t. auto.
  - destruct t as [|c t]; [discriminate|].
    destruct (fix_images_cases c t) as [(t1 & _ & E) | (_ & E)];
      rewrite E in H; clear E.
    + rewrite img_open_cons in H. injection H as <- _.
      exfalso. apply Hu. left. reflexivity.
    + injection H as -> H.
      destruct (IH t) as (t' & -> & ->); [intro; apply Hu; right; assumption | assumption |].
      exists t'. auto.
Qed.

(** In the output, every [<img ] is followed by the style attribute. *)
Lemma fix_images_styled (s pre post : jsstring) :
  fix_images s = pre ++ img_open ++ post ->
  exists post', post = img_style ++ post'.
Proof.
  remember (length s) as n eqn:En. revert s En pre post.
  induction n as [n IH] using lt_wf_ind. intros s En pre post H.
  destruct s as [|c s].
  - rewrite fix_images_nil in H. symmetry in H.
    apply app_eq_nil in H as [_ H]. discriminate.
  - destruct (fix_images_cases c s) as [(t & Es & E) | (Ec & E)];
      rewrite E in H; clear E.
    + assert (Hlen : length t < n).
      { rewrite En, Es, length_app. simpl. lia. }
      rewrite app_assoc in H.
      apply app_eq_app in H as (l & [[E1 E2] | [E1 E2]]).
      * destruct l as [|x l].
        -- (* the occurrence starts right after the replacement text *)
           apply (IH _ Hlen t eq_refl [] post). symmetry. exact E2.
        -- destruct pre as [|p pre].
           ++ (* the occurrence is the replacement text itself *)
              change ([] ++ x :: l) with (x :: l) in E1.
              rewrite <- E1, <- app_assoc in E2.
              apply app_inv_head in E2. eauto.
           ++ (* it cannot start inside the replacement text *)
              exfalso. rewrite img_open_cons in E2. injection E2 as <- _.
              rewrite img_replacement_cons in E1.
              pose proof no_lt_after_first as Hno.
              remember (lit "img " ++ img_style) as tail eqn:Etail.
              change ((p :: pre) ++ LT :: l) with (p :: (pre ++ LT :: l)) in E1.
              injection E1 as _ E1.
              apply Hno. rewrite E1.
              apply in_or_app. right. left. reflexivity.
      * (* the occurrence lies in the rest of the output *)
        apply (IH _ Hlen t eq_refl l post). exact E2.
    + destruct pre as [|p pre].
      * exfalso. rewrite img_open_cons in H, Ec.
        remember (lit "img ") as w eqn:Ew.
        change ([] ++ (LT :: w) ++ post) with (LT :: (w ++ post)) in H.
        injection H as -> H.
        apply fix_images_plain_prefix in H as (t' & -> & _).
        -- change (LT :: w ++ t') with ((LT :: w) ++ t') in Ec.
           rewrite RegexFacts.starts_with_prefix in Ec. discriminate.
        -- subst w. intro Hin. apply no_lt_after_first.
           apply in_or_app. left. assumption.
      * change ((p :: pre) ++ img_open ++ post) with (p :: (pre ++ img_open ++ post)) in H.
        injection H as _ H.
        apply (IH (length s)) with (s := s) (pre := pre); [subst n; simpl; lia | reflexivity | assumption].
Qed.

Lemma occurs_cons (needle : jsstring) (c : code_unit) (s : jsstring) :
  occurs needle s -> occurs needle (c :: s).
Proof. intros (pre & post & ->). exists (c :: pre), post. reflexivity. Qed.

(** Without a [<img ] in it a string is left as it is. *)
Lemma fix_images_unchanged (s : jsstring) :
  ~ occurs img_open s -> fix_images s = s.
Proof.
  induction s as [|c s IH]; intro H; [reflexivity|].
  destruct (fix_images_cases c s) as [(t & Es & _) | (_ & E)].
  - exfalso. apply H. exists [], t. exact Es.
  - rewrite E, IH; [reflexivity|]. intro Ho. apply H, occurs_cons, Ho.
Qed.

Lemma starts_with_straddle (pat a t : jsstring) :
  starts_with pat (a ++ t) = true ->
  starts_with pat a = true \/ exists v, pat = a ++ v /\ starts_with v t = true.
Proof.
  revert a. induction pat as [|x pat IH]; intros a H; [left; reflexivity|].
  destruct a as [|y a].
  - right. exists (x :: pat). auto.
  - simpl in H. apply andb_true_iff in H as [Hxy H].
    apply N.eqb_eq in Hxy. subst y.
    destruct (IH a H) as [Ha | (v & -> & Hv)].
    + left. simpl. rewrite N.eqb_refl. assumption.
    + right. exists v. auto.
Qed.

(** [<img ] does not overlap itself: a match of the whole text that starts
    before an occurrence ends before it. *)
Lemma img_open_no_straddle (a b : jsstring) :
  a <> [] ->
  starts_with img_open (a ++ img_open ++ b) = true ->
  starts_with img_open a = true.
Proof.
  intros Ha H. apply starts_with_straddle in H as [H | (v & E & Hv)]; [assumption|].
  destruct v as [|x v].
  - rewrite app_nil_r in E. subst a.
    rewrite <- (app_nil_r img_open) at 2. apply RegexFacts.starts_with_prefix.
  - exfalso. rewrite img_open_cons in Hv, E.
    remember (lit "img ") as w eqn:Ew.
    simpl in Hv. apply andb_true_iff in Hv as [Hx _]. apply N.eqb_eq in Hx. subst x.
    destruct a as [|a0 a]; [congruence|].
    change ((a0 :: a) ++ LT :: v) with (a0 :: (a ++ LT :: v)) in E.
    injection E as _ E. subst w.
    apply no_lt_after_first. apply in_or_app. left. rewrite E.
    apply in_or_app. right. left. reflexivity.
Qed.

(** Each occurrence of [<img ] is rewritten, whatever surrounds it. *)
Lemma fix_images_app (a b : jsstring) :
  fix_images (a ++ img_open ++ b)
  = fix_images a ++ img_open ++ img_style ++ fix_images b.
Proof.
  remember (length a) as n eqn:En. revert a En.
  induction n as [n IH] using lt_wf_ind. intros a En.
  destruct a as [|c a]; [apply fix_images_match|].
  destruct (fix_images_cases c a) as [(t & Es & E) | (Ec & E)]; rewrite E; clear E.
  - rewrite Es, <- !app_assoc, fix_images_match.
    rewrite (IH (length t)) with (a := t); [reflexivity | | reflexivity].
    rewrite En, Es, length_app, img_open_cons. simpl. lia.
  - change ((c :: a) ++ img_open ++ b) with (c :: (a ++ img_open ++ b)).
    rewrite fix_images_copy.
    + rewrite (IH (length a)) with (a := a); [reflexivity | subst n; simpl; lia | reflexivity].
    + destruct (starts_with img_open (c :: a ++ img_open ++ b)) eqn:Ex; [|reflexivity].
      change (c :: a ++ img_open ++ b) with ((c :: a) ++ img_open ++ b) in Ex.
      apply img_open_no_straddle in Ex; [congruence | discriminate].
Qed.

(** *** What a bubble receives *)

Lemma or_else_empty (s : jsstring) : or_else s (lit "") = s.
Proof. destruct s; reflexivity. Qed.

Lemma not_tag_shaped (content : jsstring) :
  containsHTML content = false <-> ~ tag_shaped content.
Proof.
  rewrite <- containsHTML_spec. destruct (containsHTML content); split; congruence.
Qed.

Section Renderer.

Variable marked_parse : jsstring -> jsstring.

Lemma raw_or_markdown_raw (content : jsstring) :
  tag_shaped content -> raw_or_markdown marked_parse content = content.
Proof.
  intro H. apply containsHTML_spec in H. unfold raw_or_markdown. rewrite H. reflexivity.
Qed.

Lemma raw_or_markdown_markdown (content : jsstring) :
  ~ tag_shaped content -> raw_or_markdown marked_parse content = marked_parse content.
Proof.
  intro H. apply not_tag_shaped in H. unfold raw_or_markdown.
  rewrite H, or_else_empty. reflexivity.
Qed.

Lemma renderMessage_assistant (content : jsstring) (p : Page) :
  run (renderMessage marked_parse (lit "assistant") content) p
  = run (set_chatBox
           (chatBox p ++ [{| className := lit "message assistant";
                             body := InnerHTML (assistant_html marked_parse content) |}])) p.
Proof. reflexivity. Qed.

Lemma renderMessage_user (content : jsstring) (p : Page) :
  run (renderMessage marked_parse (lit "user") content) p
  = run (set_chatBox
           (chatBox p ++ [{| className := lit "message user";
                             body := TextContent content |}])) p.
Proof. reflexivity. Qed.

(** C1 (as amended).  An assistant bubble receives its content as HTML.
    The content is taken as it is exactly when it is tag-shaped: it holds a
    [<], an optional [/], a letter and a [>] somewhere after the letter.
    Otherwise it is converted from markdown.  Either way the image fix is
    applied before insertion. *)
Theorem assistant_content_raw_iff_tag_shaped (content : jsstring) (p : Page) :
  exists html,
    chatBox (run (renderMessage marked_parse (lit "assistant") content) p)
    = chatBox p ++ [{| className := lit "message assistant";
                       body := InnerHTML (fix_images html) |}]
    /\ (tag_shaped content -> html = content)
    /\ (~ tag_shaped content -> html = marked_parse content).
Proof.
  exists (raw_or_markdown marked_parse content). split; [reflexivity|].
  split; [apply raw_or_markdown_raw | apply raw_or_markdown_markdown].
Qed.

(** C5.  A user bubble receives its content through [textContent]: the
    whole string becomes the bubble's text, whatever it contains, and none
    of it reaches the HTML parser.  Nothing else on the page changes. *)
Theorem user_content_is_plain_text (content : jsstring) (p : Page) :
  let p' := run (renderMessage marked_parse (lit "user") content) p in
  chatBox p' = chatBox p ++ [{| className := lit "message user";
                               body := TextContent content |}]
  /\ (forall b markup, In b (skipn (length (chatBox p)) (chatBox p')) ->
                       body b <> InnerHTML markup)
  /\ messages p' = messages p
  /\ gene_history p' = gene_history p
  /\ effects p' = effects p.
Proof.
  rewrite renderMessage_user. cbn [run set_chatBox modify snd chatBox messages gene_history effects].
  repeat split.
  intros b markup Hin.
  rewrite skipn_app, skipn_all, Nat.sub_diag in Hin. simpl in Hin.
  destruct Hin as [<- | []]. discriminate.
Qed.

(** C8 (as amended).  On either path, every occurrence of the exact text
    [<img ] in the markup chosen for an assistant bubble is rewritten to
    [<img style='max-width:100%; height:auto; display:block; margin:10px 0;' ]:
    in the inserted HTML every [<img ] is followed by that style attribute,
    and markup without [<img ] is inserted as it is. *)
Theorem every_img_open_is_styled (content : jsstring) :
  (forall pre post,
      assistant_html marked_parse content = pre ++ img_open ++ post ->
      exists post', post = img_style ++ post')
  /\ (forall a b,
        raw_or_markdown marked_parse content = a ++ img_open ++ b ->
        assistant_html marked_parse content
        = fix_images a ++ img_open ++ img_style ++ fix_images b)
  /\ (~ occurs img_open (raw_or_markdown marked_parse content) ->
      assistant_html marked_parse content = raw_or_markdown marked_parse content).
Proof.
  unfold assistant_html. split; [|split].
  - intros pre post. apply fix_images_styled.
  - intros a b ->. apply fix_images_app.
  - apply fix_images_unchanged.
Qed.

End Renderer.

(** C1, counterexample.  ["<b"] holds a [<] followed by a letter, and is
    handed to the markdown converter; ["</b>"] holds no [<] followed by a
    letter, and is inserted as it is. *)
Lemma lt_then_letter_is_not_the_test :
  (lt_then_letter (lit "<b")
   /\ containsHTML (lit "<b") = false
   /\ forall marked_parse,
        assistant_html marked_parse (lit "<b") = fix_images (marked_parse (lit "<b")))
  /\ (~ lt_then_letter (lit "</b>")
      /\ containsHTML (lit "</b>") = true
      /\ forall marked_parse, assistant_html marked_parse (lit "</b>") = lit "</b>").
Proof.
  split; split.
  - exists [], 98%N, []. split; reflexivity.
  - split; reflexivity.
  - intros (pre & l & post & E & Hl).
    destruct pre as [|a [|b [|c [|d [|e pre]]]]]; try discriminate E;
      injection E; intros; subst; try discriminate Hl;
      match goal with H : _ = _ ++ _ :: _ |- _ => destruct pre end; discriminate.
  - split; reflexivity.
Qed.

(** ** JSON.parse reads back what JSON.stringify writes *)

Module JsonFacts.
Import Json.

Lemma hex_value_digit (d : N) : (d < 16)%N -> hex_value (hex_digit d) = Some d.
Proof.
  intro H.
  assert (E : (d = 0 \/ d = 1 \/ d = 2 \/ d = 3 \/ d = 4 \/ d = 5 \/ d = 6 \/ d = 7
               \/ d = 8 \/ d = 9 \/ d = 10 \/ d = 11 \/ d = 12 \/ d = 13 \/ d = 14
               \/ d = 15)%N) by lia.
  repeat (destruct E as [-> | E]; [reflexivity|]). subst. reflexivity.
Qed.

Lemma hex4_digits (c : code_unit) :
  (c < 65536)%N ->
  hex4 (hex_digit (c / 4096 mod 16)) (hex_digit (c / 256 mod 16))
       (hex_digit (c / 16 mod 16)) (hex_digit (c mod 16)) = Some c.
Proof.
  intro H. unfold hex4.
  rewrite !hex_value_digit by (apply N.mod_lt; discriminate).
  assert (Hnz : 16%N <> 0%N) by discriminate.
  assert (E1 := N.div_mod c 16 Hnz).
  assert (E2 := N.div_mod (c / 16) 16 Hnz).
  assert (E3 := N.div_mod (c / 256) 16 Hnz).
  rewrite N.Div0.div_div in E2. rewrite N.Div0.div_div in E3.
  change (16 * 16)%N with 256%N in E2. change (256 * 16)%N with 4096%N in E3.
  assert (H4 : (c / 4096 < 16)%N) by (apply N.Div0.div_lt_upper_bound; lia).
  rewrite (N.mod_small (c / 4096) 16) by assumption.
  apply (f_equal (@Some N)). lia.
Qed.

Lemma parse_chars_unicode (h1 h2 h3 h4 : code_unit) (rest : jsstring) :
  parse_chars (BACKSLASH :: 117%N :: h1 :: h2 :: h3 :: h4 :: rest)
  = match hex4 h1 h2 h3 h4 with
    | Some u => cons_unit u (parse_chars rest)
    | None => SyntaxError
    end.
Proof. reflexivity. Qed.

Lemma parse_unicode_escape (c : code_unit) (rest : jsstring) :
  (c < 65536)%N ->
  parse_chars (unicode_escape c ++ rest) = cons_unit c (parse_chars rest).
Proof.
  intro H. unfold unicode_escape.
  change (parse_chars
            (BACKSLASH :: 117%N :: hex_digit (c / 4096 mod 16)
               :: hex_digit (c / 256 mod 16) :: hex_digit (c / 16 mod 16)
               :: hex_digit (c mod 16) :: rest)
          = cons_unit c (parse_chars rest)).
  rewrite parse_chars_unicode, hex4_digits by assumption. reflexivity.
Qed.

Lemma parse_chars_plain (c : code_unit) (rest : jsstring) :
  (c =? 34)%N = false -> (c =? 92)%N = false -> (c <? 32)%N = false ->
  parse_chars (c :: rest) = cons_unit c (parse_chars rest).
Proof. intros H1 H2 H3. cbn [parse_chars]. rewrite H1, H2, H3. reflexivity. Qed.

Lemma parse_quote_unit (c : code_unit) (rest : jsstring) :
  parse_chars (quote_unit c ++ rest) = cons_unit c (parse_chars rest).
Proof.
  unfold quote_unit.
  repeat match goal with
         | |- context [(c =? ?k)%N] =>
             destruct (N.eqb_spec c k) as [-> | ?]; [reflexivity|]
         end.
  destruct ((c <? 32)%N || is_lead_surrogate c || is_trail_surrogate c) eqn:E.
  - apply parse_unicode_escape.
    unfold is_lead_surrogate, is_trail_surrogate in E.
    repeat (apply orb_true_iff in E as [E | E]); N_props; lia.
  - N_props. apply parse_chars_plain;
      [apply N.eqb_neq; assumption | apply N.eqb_neq; assumption | apply N.ltb_ge; assumption].
Qed.

Lemma surrogate_plain (c : code_unit) (rest : jsstring) :
  is_lead_surrogate c || is_trail_surrogate c = true ->
  parse_chars (c :: rest) = cons_unit c (parse_chars rest).
Proof.
  unfold is_lead_surrogate, is_trail_surrogate. intro H.
  assert (55296 <= c)%N by (apply orb_true_iff in H as [H | H]; N_props; lia).
  apply parse_chars_plain; [apply N.eqb_neq; lia | apply N.eqb_neq; lia | apply N.ltb_ge; lia].
Qed.

(** A quoted string is read back, up to its closing quote. *)
Lemma parse_quote_units (s rest : jsstring) :
  parse_chars (quote_units s ++ QUOTE :: rest) = Parsed s rest.
Proof.
  remember (length s) as n eqn:En. revert s En.
  induction n as [n IH] using lt_wf_ind. intros s En.
  destruct s as [|c s1]; [reflexivity|].
  cbn [quote_units].
  assert (Hstep : parse_chars (quote_units s1 ++ QUOTE :: rest) = Parsed s1 rest).
  { apply (IH (length s1)); [subst n; simpl; lia | reflexivity]. }
  destruct (is_lead_surrogate c) eqn:Ec.
  - assert (Hc : (c < 65536)%N).
    { unfold is_lead_surrogate in Ec. N_props. lia. }
    destruct s1 as [|d s2].
    + rewrite parse_unicode_escape by assumption. reflexivity.
    + destruct (is_trail_surrogate d) eqn:Ed.
      * change ((c :: d :: quote_units s2) ++ QUOTE :: rest)
          with (c :: d :: (quote_units s2 ++ QUOTE :: rest)).
        rewrite surrogate_plain by (rewrite Ec; reflexivity).
        rewrite surrogate_plain by (rewrite Ed; apply orb_true_r).
        rewrite (IH (length s2)) with (s := s2); [reflexivity | subst n; simpl; lia | reflexivity].
      * rewrite <- app_assoc, parse_unicode_escape, Hstep by assumption. reflexivity.
  - rewrite <- app_assoc, parse_quote_unit, Hstep. reflexivity.
Qed.

Lemma quote_app (s rest : jsstring) :
  quote s ++ rest = QUOTE :: quote_units s ++ QUOTE :: rest.
Proof. unfold quote. rewrite <- !app_assoc. reflexivity. Qed.

Lemma punctuation :
  lit ":" = [58%N] /\ lit "," = [44%N] /\ lit "{" = [123%N] /\ lit "}" = [125%N]
  /\ lit "[" = [91%N] /\ lit "]" = [93%N].
Proof. repeat split. Qed.

Ltac punctuate :=
  destruct punctuation as (Hcolon & Hcomma & Hlbrace & Hrbrace & Hlbracket & Hrbracket);
  rewrite ?Hcolon, ?Hcomma, ?Hlbrace, ?Hrbrace, ?Hlbracket, ?Hrbracket;
  clear Hcolon Hcomma Hlbrace Hrbrace Hlbracket Hrbracket.

(** Reading punctuation and white space, without entering a parser. *)
Ltac step_text :=
  cbn [bind app skip_ws is_json_ws N.eqb Pos.eqb orb andb QUOTE].

Lemma parse_value_string (fuel : nat) (s rest : jsstring) :
  parse_value (S fuel) (quote s ++ rest) = Parsed (JString s) rest.
Proof.
  rewrite quote_app. cbn [parse_value]. step_text.
  rewrite parse_quote_units. reflexivity.
Qed.

(** The last member of an object whose value is a string. *)
Lemma parse_members_last (fuel : nat) (k v rest : jsstring) :
  parse_members (S (S fuel)) (quote k ++ lit ":" ++ quote v ++ lit "}" ++ rest)
  = Parsed [(k, JString v)] rest.
Proof.
  punctuate. rewrite quote_app. cbn [parse_members]. step_text.
  rewrite parse_quote_units. step_text.
  rewrite parse_value_string. step_text. reflexivity.
Qed.

(** A member whose value is a string, followed by more members. *)
Lemma parse_members_more (fuel : nat) (k v more : jsstring) :
  parse_members (S (S fuel)) (quote k ++ lit ":" ++ quote v ++ lit "," ++ more)
  = bind (parse_members (S fuel) more)
         (fun kvs rest => Parsed ((k, JString v) :: kvs) rest).
Proof.
  punctuate. rewrite quote_app. cbn [parse_members]. step_text.
  rewrite parse_quote_units. step_text.
  rewrite parse_value_string. step_text. reflexivity.
Qed.

Lemma parse_value_object (fuel : nat) (k more : jsstring) :
  parse_value (S fuel) (lit "{" ++ quote k ++ more)
  = bind (parse_members fuel (quote k ++ more))
         (fun kvs rest => Parsed (JObject kvs) rest).
Proof.
  punctuate. rewrite quote_app. cbn [parse_value]. step_text. reflexivity.
Qed.

Lemma parse_value_array (fuel : nat) (more : jsstring) :
  parse_value (S fuel) (lit "[" ++ lit "{" ++ more)
  = bind (parse_elements fuel (lit "{" ++ more))
         (fun vs rest => Parsed (JArray vs) rest).
Proof. punctuate. cbn [parse_value]. step_text. reflexivity. Qed.

Lemma length_join (A : Type) (f : A -> jsstring) (sep : jsstring) (l : list A) :
  (forall a, 1 <= length (f a)) ->
  length l <= length (join sep (List.map f l)).
Proof.
  intro Hf. induction l as [|a l IH]; [simpl; lia|].
  destruct l as [|b l].
  - simpl. apply Hf.
  - change (join sep (List.map f (a :: b :: l)))
      with (f a ++ sep ++ join sep (List.map f (b :: l))).
    rewrite !length_app. specialize (Hf a). simpl in *. lia.
Qed.

(** *** JSON.parse always answers *)

Lemma answers_le (A : Type) (n m : nat) (x : outcome A) :
  answers n x -> n <= m -> answers m x.
Proof. destruct x; simpl; [lia | trivial | trivial]. Qed.

Lemma answers_bind (A B : Type) (n m : nat) (x : outcome A)
      (k : A -> jsstring -> outcome B) :
  answers n x ->
  (forall a rest, length rest < n -> answers m (k a rest)) ->
  answers m (bind x k).
Proof. destruct x; simpl; auto. Qed.

Lemma skip_ws_length (s : jsstring) : length (skip_ws s) <= length s.
Proof.
  induction s as [|c s IH]; simpl; [lia|].
  destruct (is_json_ws c); simpl; lia.
Qed.

Lemma parse_chars_answers (s : jsstring) : answers (length s) (parse_chars s).
Proof.
  remember (length s) as n eqn:En. revert s En.
  induction n as [n IH] using lt_wf_ind. intros s En.
  assert (Hrec : forall t, length t < n -> forall c,
                   answers n (cons_unit c (parse_chars t))).
  { intros t Ht c. unfold cons_unit.
    apply answers_bind with (n := length t).
    - apply (IH (length t) Ht t eq_refl).
    - intros a rest Hr. simpl. lia. }
  destruct s as [|c s1]; [exact I|].
  cbn [parse_chars]. simpl in En.
  destruct (c =? 34)%N; [simpl; lia|].
  destruct (c =? 92)%N.
  - destruct s1 as [|e s2]; [exact I|]. simpl in En.
    destruct (e =? 117)%N.
    + destruct s2 as [|h1 [|h2 [|h3 [|h4 s3]]]]; try exact I.
      destruct (hex4 h1 h2 h3 h4); [|exact I].
      apply Hrec. simpl in En. lia.
    + destruct (simple_escape e); [|exact I]. apply Hrec. lia.
  - destruct (c <? 32)%N; [exact I|]. apply Hrec. lia.
Qed.

Lemma digits_length (s : jsstring) :
  length (snd (digits s)) <= length s
  /\ (fst (digits s) <> [] -> length (snd (digits s)) < length s).
Proof.
  induction s as [|c s IH]; simpl; [split; [lia | congruence]|].
  destruct (is_digit c); [|simpl; split; [lia | congruence]].
  destruct (digits s) as [ds rest]. simpl in *. split; [lia | intros _; lia].
Qed.

Lemma digits1_answers (s : jsstring) (n : nat) :
  length s <= n -> answers (S n) (digits1 s).
Proof.
  intro H. unfold digits1. pose proof (digits_length s) as [Hle _].
  destruct (digits s) as [[|d ds] rest]; simpl in *; [exact I | lia].
Qed.

Lemma lex_int_answers (s : jsstring) : answers (length s) (lex_int s).
Proof.
  destruct s as [|c s]; [exact I|]. simpl.
  destruct (c =? 48)%N; [simpl; lia|].
  destruct (is_digit c); [|exact I].
  pose proof (digits_length s) as [Hle _].
  destruct (digits s) as [ds rest]. simpl in *. lia.
Qed.

Lemma lex_frac_answers (s : jsstring) : answers (S (length s)) (lex_frac s).
Proof.
  destruct s as [|c s]; [simpl; lia|]. cbn [lex_frac].
  destruct (c =? 46)%N; [|simpl; lia].
  apply answers_bind with (n := S (length s)).
  - apply digits1_answers. lia.
  - intros ds rest Hr. simpl in *. lia.
Qed.

Lemma lex_exp_answers (s : jsstring) : answers (S (length s)) (lex_exp s).
Proof.
  destruct s as [|c s]; [simpl; lia|]. cbn [lex_exp].
  destruct ((c =? 101) || (c =? 69))%N; [|simpl; lia].
  destruct s as [|g s']; [exact I|].
  destruct ((g =? 43) || (g =? 45))%N.
  - apply answers_bind with (n := S (length s')).
    + apply digits1_answers. lia.
    + intros ds rest Hr. simpl in *. lia.
  - apply answers_bind with (n := S (length (g :: s'))).
    + apply digits1_answers. lia.
    + intros ds rest Hr. simpl in *. lia.
Qed.

Lemma lex_number_answers (s : jsstring) : answers (length s) (lex_number s).
Proof.
  unfold lex_number.
  assert (Hs : length (snd (lex_sign s)) <= length s).
  { destruct s as [|c s]; simpl; [lia|]. destruct (c =? 45)%N; simpl; lia. }
  destruct (lex_sign s) as [sign s1]. simpl in Hs.
  apply answers_bind with (n := length s1); [apply lex_int_answers|].
  intros i s2 H2.
  apply answers_bind with (n := S (length s2)); [apply lex_frac_answers|].
  intros f s3 H3.
  apply answers_bind with (n := S (length s3)); [apply lex_exp_answers|].
  intros e s4 H4. simpl. lia.
Qed.

Lemma keyword_answers (A : Type) (c : code_unit) (word : jsstring) (a : A) (s : jsstring) :
  answers (length s) (keyword (c :: word) a s).
Proof.
  unfold keyword. destruct (starts_with (c :: word) s) eqn:E; [|exact I].
  apply RegexFacts.starts_with_app in E as (t & ->).
  rewrite skipn_app, skipn_all, Nat.sub_diag. simpl. rewrite length_app. lia.
Qed.

(** With fuel above twice the length of the text the three parsers answer. *)
Lemma parsers_answer (fuel : nat) :
  (forall s, 2 * length s + 1 <= fuel -> answers (length s) (parse_value fuel s))
  /\ (forall s, 2 * length s + 2 <= fuel -> answers (length s) (parse_elements fuel s))
  /\ (forall s, 2 * length s + 2 <= fuel -> answers (length s) (parse_members fuel s)).
Proof.
  induction fuel as [|fuel (IHv & IHe & IHm)].
  { repeat split; intros s H; lia. }
  split; [|split]; intros s Hf.
  - (* a value *)
    cbn [parse_value]. pose proof (skip_ws_length s) as Hws.
    destruct (skip_ws s) as [|c s1]; [exact I|]. simpl in Hws.
    destruct (c =? 34)%N.
    { apply answers_bind with (n := length s1); [apply parse_chars_answers|].
      intros str rest Hr. simpl. lia. }
    destruct (c =? 91)%N.
    { pose proof (skip_ws_length s1) as Hws1.
      destruct (skip_ws s1) as [|d s2]; [exact I|]. simpl in Hws1.
      destruct (d =? 93)%N; [simpl; lia|].
      apply answers_bind with (n := length s1); [apply IHe; lia|].
      intros vs rest Hr. simpl. lia. }
    destruct (c =? 123)%N.
    { pose proof (skip_ws_length s1) as Hws1.
      destruct (skip_ws s1) as [|d s2]; [exact I|]. simpl in Hws1.
      destruct (d =? 125)%N; [simpl; lia|].
      apply answers_bind with (n := length s1); [apply IHm; lia|].
      intros kvs rest Hr. simpl. lia. }
    destruct (c =? 116)%N.
    { eapply answers_le; [apply keyword_answers | simpl; lia]. }
    destruct (c =? 102)%N.
    { eapply answers_le; [apply keyword_answers | simpl; lia]. }
    destruct (c =? 110)%N.
    { eapply answers_le; [apply keyword_answers | simpl; lia]. }
    destruct ((c =? 45)%N || is_digit c); [|exact I].
    apply answers_bind with (n := length (c :: s1)); [apply lex_number_answers|].
    intros lx rest Hr. simpl in *. lia.
  - (* the elements of an array *)
    cbn [parse_elements].
    apply answers_bind with (n := length s); [apply IHv; lia|].
    intros v rest Hr. pose proof (skip_ws_length rest) as Hws.
    destruct (skip_ws rest) as [|d r1]; [exact I|]. simpl in Hws.
    destruct (d =? 44)%N.
    { apply answers_bind with (n := length r1); [apply IHe; lia|].
      intros vs r2 H2. simpl. lia. }
    destruct (d =? 93)%N; [simpl; lia | exact I].
  - (* the members of an object *)
    cbn [parse_members]. pose proof (skip_ws_length s) as Hws.
    destruct (skip_ws s) as [|q s1]; [exact I|]. simpl in Hws.
    destruct (q =? 34)%N; [|exact I].
    apply answers_bind with (n := length s1); [apply parse_chars_answers|].
    intros k rest Hr. pose proof (skip_ws_length rest) as Hws1.
    destruct (skip_ws rest) as [|c r1]; [exact I|]. simpl in Hws1.
    destruct (c =? 58)%N; [|exact I].
    apply answers_bind with (n := length r1); [apply IHv; lia|].
    intros v r2 H2. pose proof (skip_ws_length r2) as Hws2.
    destruct (skip_ws r2) as [|d r3]; [exact I|]. simpl in Hws2.
    destruct (d =? 44)%N.
    { apply answers_bind with (n := length r3); [apply IHm; lia|].
      intros kvs r4 H4. simpl. lia. }
    destruct (d =? 125)%N; [simpl; lia | exact I].
Qed.

(** [parse] never runs out of fuel: it yields a value or a SyntaxError. *)
Lemma parse_total (text : jsstring) :
  (exists v, parse text = Parsed v []) \/ parse text = SyntaxError.
Proof.
  unfold parse.
  destruct (parsers_answer (2 * length text + 2)) as (Hv & _ & _).
  specialize (Hv text ltac:(lia)).
  destruct (parse_value (2 * length text + 2) text) as [v rest| |]; simpl in *.
  - destruct (skip_ws rest); eauto.
  - auto.
  - contradiction.
Qed.

End JsonFacts.

(** ** The conversation store *)

Lemma stringify_turn (t : Turn) :
  Json.stringify (json_of_turn t)
  = lit "{" ++ Json.quote (lit "role") ++ lit ":" ++ Json.quote (role t) ++ lit ","
    ++ Json.quote (lit "content") ++ lit ":" ++ Json.quote (content t) ++ lit "}".
Proof.
  unfold json_of_turn. cbn [Json.stringify List.map Json.join fst snd].
  rewrite <- !app_assoc. reflexivity.
Qed.

Lemma stringify_turn_starts (t : Turn) :
  exists more, Json.stringify (json_of_turn t) = lit "{" ++ more.
Proof. rewrite stringify_turn. eauto. Qed.

(** A serialized turn is read back as the same turn. *)
Lemma parse_turn (fuel : nat) (t : Turn) (rest : jsstring) :
  Json.parse_value (S (S (S (S fuel)))) (Json.stringify (json_of_turn t) ++ rest)
  = Json.Parsed (json_of_turn t) rest.
Proof.
  rewrite stringify_turn, <- !app_assoc.
  rewrite JsonFacts.parse_value_object.
  rewrite JsonFacts.parse_members_more, JsonFacts.parse_members_last.
  reflexivity.
Qed.

Lemma stringify_messages (ms : list Turn) :
  Json.stringify (json_of_messages ms)
  = lit "[" ++ Json.join (lit ",") (List.map (fun t => Json.stringify (json_of_turn t)) ms)
    ++ lit "]".
Proof.
  unfold json_of_messages. cbn [Json.stringify]. rewrite map_map. reflexivity.
Qed.

Lemma parse_turns (extra : nat) (t : Turn) (ms : list Turn) (rest : jsstring) :
  Json.parse_elements (length (t :: ms) + (4 + extra))
    (Json.join (lit ",") (List.map (fun t => Json.stringify (json_of_turn t)) (t :: ms))
     ++ lit "]" ++ rest)
  = Json.Parsed (List.map json_of_turn (t :: ms)) rest.
Proof.
  revert t. induction ms as [|t' ms IH]; intro t.
  - cbn [length Nat.add List.map Json.join Json.parse_elements].
    rewrite parse_turn. reflexivity.
  - change (length (t :: t' :: ms) + (4 + extra))
      with (S (length (t' :: ms) + (4 + extra))).
    change (Json.join (lit ",")
              (List.map (fun t => Json.stringify (json_of_turn t)) (t :: t' :: ms)))
      with (Json.stringify (json_of_turn t) ++ lit ","
            ++ Json.join (lit ",")
                 (List.map (fun t => Json.stringify (json_of_turn t)) (t' :: ms))).
    cbn [Json.parse_elements]. rewrite <- !app_assoc.
    replace (length (t' :: ms) + (4 + extra))
      with (S (S (S (S (length (t' :: ms) + extra))))) at 1 by lia.
    rewrite parse_turn.
    JsonFacts.punctuate. JsonFacts.step_text.
    match goal with
    | |- Json.bind ?x _ = _ =>
        replace x with (Json.Parsed (List.map json_of_turn (t' :: ms)) rest)
          by (symmetry; exact (IH t'))
    end.
    reflexivity.
Qed.

Lemma length_stringify_messages (ms : list Turn) :
  length ms + 2 <= length (Json.stringify (json_of_messages ms)).
Proof.
  rewrite stringify_messages, !length_app.
  assert (H : length ms
              <= length (Json.join (lit ",")
                           (List.map (fun t => Json.stringify (json_of_turn t)) ms))).
  { apply JsonFacts.length_join. intro a.
    destruct (stringify_turn_starts a) as (more & ->).
    rewrite length_app. change (length (lit "{")) with 1. lia. }
  change (length (lit "[")) with 1. change (length (lit "]")) with 1. lia.
Qed.

(** JSON.parse of JSON.stringify(messages) is the same array of turns. *)
Lemma parse_stringify_messages (ms : list Turn) :
  Json.parse (Json.stringify (json_of_messages ms)) = Json.Parsed (json_of_messages ms) [].
Proof.
  destruct ms as [|t ms]; [reflexivity|].
  unfold Json.parse.
  pose proof (length_stringify_messages (t :: ms)) as Hlen.
  remember (length (Json.stringify (json_of_messages (t :: ms)))) as n eqn:En.
  replace (2 * n + 2) with (S (length (t :: ms) + (4 + (2 * n + 2 - (length (t :: ms) + 5)))))
    by lia.
  clear En Hlen.
  rewrite stringify_messages.
  destruct (stringify_turn_starts t) as (more & Et).
  assert (Hj : exists more',
             Json.join (lit ",") (List.map (fun t => Json.stringify (json_of_turn t)) (t :: ms))
             = lit "{" ++ more').
  { destruct ms; cbn [List.map Json.join]; rewrite Et; [eauto|].
    rewrite <- app_assoc. eauto. }
  destruct Hj as (more' & Hj).
  pose proof (parse_turns (2 * n + 2 - (length (t :: ms) + 5)) t ms []) as Hp.
  rewrite Hj in *. rewrite <- !app_assoc in *. rewrite app_nil_r in Hp.
  rewrite JsonFacts.parse_value_array, Hp. reflexivity.
Qed.

Lemma history_text_saved (ms : list Turn) :
  history_text (Some (Json.stringify (json_of_messages ms)))
  = Json.stringify (json_of_messages ms).
Proof. reflexivity. Qed.

(** What [saveHistory] wrote, the next load reads back. *)
Lemma restore_saved (ms : list Turn) :
  restore (Some (Json.stringify (json_of_messages ms)))
  = Json.Parsed (json_of_messages ms) [].
Proof. unfold restore. rewrite history_text_saved. apply parse_stringify_messages. Qed.

(** C2 (as amended).  When the entry is absent or empty, [restore] yields
    the empty conversation; when it holds what [saveHistory] wrote, it
    yields that conversation; when it holds other text that JSON.parse
    rejects, the SyntaxError reaches the caller. *)
Theorem restore_of_absent_saved_or_broken :
  restore None = Json.Parsed (json_of_messages []) []
  /\ restore (Some (lit "")) = Json.Parsed (json_of_messages []) []
  /\ (forall ms, restore (Some (Json.stringify (json_of_messages ms)))
                 = Json.Parsed (json_of_messages ms) [])
  /\ (forall c text, Json.parse (c :: text) = Json.SyntaxError ->
                     restore (Some (c :: text)) = Json.SyntaxError)
  /\ (forall stored, (exists v, restore stored = Json.Parsed v [])
                     \/ restore stored = Json.SyntaxError).
Proof.
  split; [reflexivity|]. split; [reflexivity|]. split; [apply restore_saved|].
  split; [intros c text H; exact H|].
  intro stored. apply JsonFacts.parse_total.
Qed.

(** C2, counterexample.  Stored text that is not JSON makes [restore]
    throw. *)
Lemma restore_throws_on_broken_text :
  restore (Some (lit "{")) = Json.SyntaxError
  /\ restore (Some (lit "not json")) = Json.SyntaxError.
Proof. split; reflexivity. Qed.

(** *** The context window *)

Lemma Array_slice_last (A : Type) (n : nat) (l : list A) :
  0 < n -> Array_slice (- Z.of_nat n) l = skipn (length l - n) l.
Proof.
  intro Hn. unfold Array_slice.
  destruct (Z.ltb_spec (- Z.of_nat n) 0) as [_ | H]; [|lia].
  f_equal. lia.
Qed.

Lemma getLlmMessages_eq (p : Page) :
  getLlmMessages p = (skipn (length (messages p) - 20) (messages p), p).
Proof.
  unfold getLlmMessages, bind, read, ret.
  change (- MAX_CONTEXT_MESSAGES)%Z with (- Z.of_nat 20)%Z.
  rewrite Array_slice_last by lia. reflexivity.
Qed.

(** C3.  The context window holds at most 20 turns and is a suffix of the
    conversation: its last 20 turns, in order, when there are more than 20,
    and all of it otherwise.  The page is left as it was. *)
Theorem context_window_is_last_20 (p : Page) :
  let window := fst (getLlmMessages p) in
  length window <= 20
  /\ length window = Nat.min 20 (length (messages p))
  /\ (exists older, messages p = older ++ window)
  /\ (20 < length (messages p) ->
      length window = 20
      /\ messages p = firstn (length (messages p) - 20) (messages p) ++ window)
  /\ (length (messages p) <= 20 -> window = messages p)
  /\ snd (getLlmMessages p) = p.
Proof.
  rewrite getLlmMessages_eq. cbn [fst snd].
  set (ms := messages p). set (k := length ms - 20).
  assert (Hlen : length (skipn k ms) = Nat.min 20 (length ms)).
  { rewrite length_skipn. subst k. lia. }
  repeat split.
  - lia.
  - exact Hlen.
  - exists (firstn k ms). symmetry. apply firstn_skipn.
  - lia.
  - symmetry. apply firstn_skipn.
  - intro H. subst k. replace (length ms - 20) with 0 by lia. reflexivity.
Qed.

(** *** Trimming *)

Lemma trimStart_blank (s : jsstring) :
  trimStart s = [] <-> forallb is_js_whitespace s = true.
Proof.
  induction s as [|c s IH]; simpl; [tauto|].
  destruct (is_js_whitespace c); simpl; [exact IH|].
  split; discriminate.
Qed.

Lemma trimStart_head (s : jsstring) (c : code_unit) (t : jsstring) :
  trimStart s = c :: t -> is_js_whitespace c = false.
Proof.
  induction s as [|x s IH]; simpl; [discriminate|].
  destruct (is_js_whitespace x) eqn:Ex; [exact IH|].
  intro H. injection H as -> _. exact Ex.
Qed.

Lemma forallb_rev (A : Type) (f : A -> bool) (l : list A) :
  forallb f (rev l) = forallb f l.
Proof.
  induction l as [|a l IH]; [reflexivity|].
  simpl. rewrite forallb_app, IH. simpl. rewrite andb_true_r. apply andb_comm.
Qed.

(** [trim] leaves nothing exactly when the string is all white space. *)
Lemma trim_blank (s : jsstring) :
  trim s = [] <-> forallb is_js_whitespace s = true.
Proof.
  unfold trim, trimEnd. split.
  - intro H. apply (f_equal (@rev code_unit)) in H. rewrite rev_involutive in H.
    simpl in H. apply trimStart_blank in H. rewrite forallb_rev in H.
    destruct (trimStart s) as [|c t] eqn:E.
    + apply trimStart_blank. exact E.
    + apply trimStart_head in E. simpl in H. rewrite E in H. discriminate.
  - intro H. apply trimStart_blank in H. rewrite H. reflexivity.
Qed.

(** ** The send controller *)

Lemma snoc3 (A : Type) (l : list A) (a b c : A) :
  l ++ [a; b; c] = ((l ++ [a]) ++ [b]) ++ [c].
Proof. rewrite <- !app_assoc. reflexivity. Qed.

Section SendController.

Variable marked_parse : jsstring -> jsstring.

(** With nothing but white space in the input, [sendMessage] returns at
    once. *)
Lemma sendMessage_blank (p : Page) :
  trim (userInput_value p) = [] -> sendMessage marked_parse p = (None, p).
Proof. intro H. unfold sendMessage, bind, read. rewrite H. reflexivity. Qed.

(** Otherwise it runs up to the fetch. *)
Lemma sendMessage_submits (p : Page) (text : jsstring) :
  trim (userInput_value p) = text -> text <> [] ->
  sendMessage marked_parse p
  = (Some (payload_for (messages p ++ [user_turn text])),
     {| messages := messages p ++ [user_turn text];
        gene_history :=
          Some (Json.stringify (json_of_messages (messages p ++ [user_turn text])));
        chatBox := chatBox p ++ [user_bubble text];
        userInput_value := lit "";
        userInput_disabled := true;
        sendBtn_disabled := true;
        typing_hidden := option_map (fun _ => false) (typing_hidden p);
        effects :=
          effects p
          ++ [Pushed (user_turn text);
              Persisted (Json.stringify (json_of_messages (messages p ++ [user_turn text])));
              Requested (payload_for (messages p ++ [user_turn text]))] |}).
Proof.
  intros H Hne. destruct text as [|c t]; [congruence|].
  etransitivity;
    [| apply f_equal2; [reflexivity|];
       apply (f_equal (fun e => Build_Page _ _ _ _ _ _ _ e));
       symmetry; apply snoc3].
  unfold sendMessage, bind, read. rewrite H. reflexivity.
Qed.

(** When the response arrives the rest of [sendMessage] runs. *)
Lemma sendMessage_resume_data (p : Page) (data : ChatData) :
  run (sendMessage_resume marked_parse (Data data)) p
  = {| messages := messages p ++ reply_turns (reply data);
       gene_history :=
         Some (Json.stringify
                 (json_of_messages (messages p ++ reply_turns (reply data))));
       chatBox := chatBox p ++ response_bubbles marked_parse data;
       userInput_value := userInput_value p;
       userInput_disabled := false;
       sendBtn_disabled := false;
       typing_hidden := option_map (fun _ => true) (typing_hidden p);
       effects :=
         effects p ++ [Responded]
         ++ List.map Pushed (reply_turns (reply data))
         ++ [Persisted
               (Json.stringify
                  (json_of_messages (messages p ++ reply_turns (reply data))))] |}.
Proof.
  unfold sendMessage_resume, response_bubbles, reply_turns, run.
  destruct (truthy (reply data)) as [text|]; destruct (truthy (html data)) as [markup|].
  - etransitivity;
      [| apply (f_equal2 (fun c e => Build_Page _ _ c _ _ _ _ e)); symmetry;
         [apply app_assoc | apply snoc3]].
    reflexivity.
  - etransitivity;
      [| apply (f_equal2 (fun c e => Build_Page _ _ c _ _ _ _ e)); symmetry;
         [reflexivity | apply snoc3]].
    reflexivity.
  - rewrite (app_nil_r (messages p)).
    etransitivity;
      [| apply (f_equal2 (fun c e => Build_Page _ _ c _ _ _ _ e)); symmetry;
         [reflexivity | apply app_assoc]].
    reflexivity.
  - rewrite (app_nil_r (messages p)).
    etransitivity;
      [| apply (f_equal2 (fun c e => Build_Page _ _ c _ _ _ _ e)); symmetry;
         [apply app_nil_r | apply app_assoc]].
    reflexivity.
Qed.

Lemma sendMessage_resume_failure (p : Page) (r : Response) :
  is_failure r = true -> run (sendMessage_resume marked_parse r) p = p.
Proof. destruct r; [reflexivity | reflexivity | discriminate]. Qed.

Lemma clearChat_eq (p : Page) :
  run clearChat p
  = {| messages := []; gene_history := None; chatBox := [];
       userInput_value := userInput_value p;
       userInput_disabled := userInput_disabled p;
       sendBtn_disabled := sendBtn_disabled p;
       typing_hidden := typing_hidden p;
       effects := effects p ++ [Removed] |}.
Proof. reflexivity. Qed.

End SendController.

(** *** Storage mirrors memory *)

Lemma reconciled_saved (p : Page) :
  gene_history p = Some (Json.stringify (json_of_messages (messages p))) ->
  reconciled p.
Proof. unfold reconciled. intros ->. reflexivity. Qed.

Section ControllerClaims.

Variable marked_parse : jsstring -> jsstring.

Ltac project :=
  cbn [fst snd messages gene_history chatBox userInput_value userInput_disabled
       sendBtn_disabled typing_hidden effects].

(** C9.  With an input that is empty or all white space, the submit
    handler returns at once: no request is issued and the page (the
    conversation, the stored history, the controls, the effect log) is
    exactly as before. *)
Theorem blank_submit_does_nothing (p : Page) :
  forallb is_js_whitespace (userInput_value p) = true ->
  sendMessage marked_parse p = (None, p)
  /\ run (handle marked_parse Submit) p = p.
Proof.
  intro H. apply trim_blank in H.
  assert (E : sendMessage marked_parse p = (None, p)) by (apply sendMessage_blank; exact H).
  split; [exact E|].
  unfold run, handle, bind. rewrite E. reflexivity.
Qed.

Lemma submit_reconciles (p : Page) (c : code_unit) (text : jsstring) :
  trim (userInput_value p) = c :: text ->
  let p' := snd (sendMessage marked_parse p) in
  messages p' = messages p ++ [user_turn (c :: text)]
  /\ gene_history p' = Some (Json.stringify (json_of_messages (messages p')))
  /\ reconciled p'.
Proof.
  intros H p'. subst p'.
  rewrite (@sendMessage_submits marked_parse p (c :: text) H ltac:(discriminate)).
  project.
  split; [reflexivity|]. split; [reflexivity|]. apply reconciled_saved. reflexivity.
Qed.

Lemma resume_reconciles (p : Page) (data : ChatData) :
  let p' := run (sendMessage_resume marked_parse (Data data)) p in
  messages p' = messages p ++ reply_turns (reply data)
  /\ gene_history p' = Some (Json.stringify (json_of_messages (messages p')))
  /\ reconciled p'.
Proof.
  intro p'. subst p'.
  rewrite sendMessage_resume_data. project.
  split; [reflexivity|]. split; [reflexivity|]. apply reconciled_saved. reflexivity.
Qed.

Lemma clear_reconciles (p : Page) :
  let p' := run clearChat p in
  messages p' = [] /\ gene_history p' = None /\ reconciled p'.
Proof. repeat split. Qed.

(** Every handler keeps the stored text in step with the conversation. *)
Lemma handle_keeps_reconciled (e : Event) (p : Page) :
  reconciled p -> reconciled (run (handle marked_parse e) p).
Proof.
  intro Hp. destruct e as [value | | | r].
  - exact Hp.
  - unfold run, handle, bind.
    destruct (trim (userInput_value p)) as [|c text] eqn:E.
    + rewrite (sendMessage_blank marked_parse p E). exact Hp.
    + destruct (submit_reconciles p E) as (_ & _ & H).
      destruct (sendMessage marked_parse p) as [req p']. exact H.
  - apply clear_reconciles.
  - destruct r as [| | data].
    + exact Hp.
    + exact Hp.
    + apply resume_reconciles.
Qed.

(** C4.  After each mutation of the conversation the stored text is the
    serialization of the whole conversation in memory: after the user
    turn is appended by a submit, after the response is handled (whether
    or not it appends an assistant turn), and after a clear, which leaves
    the conversation empty and the entry removed.  Every handler preserves
    the agreement. *)
Theorem storage_reconciled_after_mutation :
  (forall p c text,
      trim (userInput_value p) = c :: text ->
      let p' := snd (sendMessage marked_parse p) in
      messages p' = messages p ++ [user_turn (c :: text)]
      /\ gene_history p' = Some (Json.stringify (json_of_messages (messages p')))
      /\ reconciled p')
  /\ (forall p data,
        let p' := run (sendMessage_resume marked_parse (Data data)) p in
        messages p' = messages p ++ reply_turns (reply data)
        /\ gene_history p' = Some (Json.stringify (json_of_messages (messages p')))
        /\ reconciled p')
  /\ (forall p,
        let p' := run clearChat p in
        messages p' = [] /\ gene_history p' = None /\ reconciled p')
  /\ (forall e p, reconciled p -> reconciled (run (handle marked_parse e) p)).
Proof.
  split; [exact submit_reconciles|]. split; [exact resume_reconciles|].
  split; [exact clear_reconciles | exact handle_keeps_reconciled].
Qed.

(** *** One send cycle *)

(** The page once a request is pending, and once its response has been
    handled. *)
Lemma send_cycle (p : Page) (c : code_unit) (text : jsstring) (data : ChatData) :
  trim (userInput_value p) = c :: text ->
  let u := user_turn (c :: text) in
  let ms := messages p ++ [u] in
  let ms' := ms ++ reply_turns (reply data) in
  let p1 := snd (sendMessage marked_parse p) in
  let p2 := run (sendMessage_resume marked_parse (Data data)) p1 in
  p1 = {| messages := ms;
          gene_history := Some (Json.stringify (json_of_messages ms));
          chatBox := chatBox p ++ [user_bubble (c :: text)];
          userInput_value := lit "";
          userInput_disabled := true;
          sendBtn_disabled := true;
          typing_hidden := option_map (fun _ => false) (typing_hidden p);
          effects := effects p
                     ++ [Pushed u; Persisted (Json.stringify (json_of_messages ms));
                         Requested (payload_for ms)] |}
  /\ p2 = {| messages := ms';
             gene_history := Some (Json.stringify (json_of_messages ms'));
             chatBox := (chatBox p ++ [user_bubble (c :: text)])
                        ++ response_bubbles marked_parse data;
             userInput_value := lit "";
             userInput_disabled := false;
             sendBtn_disabled := false;
             typing_hidden := option_map (fun _ => true) (typing_hidden p);
             effects := (effects p
                         ++ [Pushed u; Persisted (Json.stringify (json_of_messages ms));
                             Requested (payload_for ms)])
                        ++ [Responded]
                        ++ List.map Pushed (reply_turns (reply data))
                        ++ [Persisted (Json.stringify (json_of_messages ms'))] |}.
Proof.
  intros H u ms ms' p1 p2. subst p2 p1 ms' ms u.
  rewrite (@sendMessage_submits marked_parse p (c :: text) H ltac:(discriminate)).
  cbn [snd]. split; [reflexivity|].
  rewrite sendMessage_resume_data. project.
  destruct (typing_hidden p); reflexivity.
Qed.

(** C6.  In a send cycle the effects come in this order: the user turn is
    pushed, the conversation is persisted, the request is issued; then,
    once the response has arrived, the assistant turn (if the reply is
    non-empty) is pushed and the conversation is persisted again.  When
    the request is issued the conversation ends with the user turn and is
    already in storage; when the cycle ends the conversation holds the
    assistant turn after it (if the reply is non-empty) and storage holds
    that conversation. *)
Theorem send_cycle_order (p : Page) (c : code_unit) (text : jsstring) (data : ChatData) :
  trim (userInput_value p) = c :: text ->
  let u := user_turn (c :: text) in
  let ms := messages p ++ [u] in
  let ms' := ms ++ reply_turns (reply data) in
  let p1 := snd (sendMessage marked_parse p) in
  let p2 := run (sendMessage_resume marked_parse (Data data)) p1 in
  fst (sendMessage marked_parse p) = Some (payload_for ms)
  /\ effects p1
     = effects p
       ++ [Pushed u; Persisted (Json.stringify (json_of_messages ms));
           Requested (payload_for ms)]
  /\ messages p1 = ms
  /\ gene_history p1 = Some (Json.stringify (json_of_messages ms))
  /\ effects p2
     = effects p1
       ++ [Responded]
       ++ List.map Pushed (reply_turns (reply data))
       ++ [Persisted (Json.stringify (json_of_messages ms'))]
  /\ messages p2 = ms'
  /\ gene_history p2 = Some (Json.stringify (json_of_messages ms')).
Proof.
  intros H u ms ms' p1 p2.
  destruct (send_cycle p data H) as [E1 E2].
  subst p2 p1 ms' ms u. cbv zeta in E1, E2.
  split.
  { rewrite (@sendMessage_submits marked_parse p (c :: text) H ltac:(discriminate)).
    reflexivity. }
  rewrite E2, E1. project. repeat split.
Qed.

(** *** A request that fails *)

Lemma clears_keep_controls (n : nat) (p : Page) :
  sendBtn_disabled (Nat.iter n (run clearChat) p) = sendBtn_disabled p
  /\ userInput_disabled (Nat.iter n (run clearChat) p) = userInput_disabled p.
Proof.
  induction n as [|n IH]; [split; reflexivity|].
  cbn [Nat.iter nat_rect]. rewrite clearChat_eq. project. exact IH.
Qed.

(** C7.  When the fetch is rejected or the body is not JSON, nothing of
    [sendMessage] runs after the await: the page stays as it was when the
    request was issued.  The conversation ends with the user turn (no
    assistant turn), the chat display got the user bubble and nothing
    else (no error message), the typing indicator is still shown, and the
    send button and the input stay disabled, also when the chat is
    cleared afterwards. *)
Theorem failed_request_is_not_recovered
    (p : Page) (c : code_unit) (text : jsstring) (r : Response) :
  trim (userInput_value p) = c :: text ->
  is_failure r = true ->
  let p1 := snd (sendMessage marked_parse p) in
  let p2 := run (sendMessage_resume marked_parse r) p1 in
  p2 = p1
  /\ messages p2 = messages p ++ [user_turn (c :: text)]
  /\ chatBox p2 = chatBox p ++ [user_bubble (c :: text)]
  /\ typing_hidden p2 = option_map (fun _ => false) (typing_hidden p)
  /\ sendBtn_disabled p2 = true
  /\ userInput_disabled p2 = true
  /\ (forall n, sendBtn_disabled (Nat.iter n (run clearChat) p2) = true
                /\ userInput_disabled (Nat.iter n (run clearChat) p2) = true).
Proof.
  intros H Hr p1 p2.
  assert (E2 : p2 = p1) by (apply sendMessage_resume_failure; exact Hr).
  assert (E1 : p1 = snd (sendMessage marked_parse p)) by reflexivity.
  rewrite (@sendMessage_submits marked_parse p (c :: text) H ltac:(discriminate)) in E1.
  cbn [snd] in E1. clearbody p1 p2. subst p2 p1.
  split; [reflexivity|]. project. repeat split;
    destruct (clears_keep_controls n
                {| messages := messages p ++ [user_turn (c :: text)];
                   gene_history :=
                     Some (Json.stringify
                             (json_of_messages (messages p ++ [user_turn (c :: text)])));
                   chatBox := chatBox p ++ [user_bubble (c :: text)];
                   userInput_value := lit "";
                   userInput_disabled := true;
                   sendBtn_disabled := true;
                   typing_hidden := option_map (fun _ => false) (typing_hidden p);
                   effects :=
                     effects p
                     ++ [Pushed (user_turn (c :: text));
                         Persisted
                           (Json.stringify
                              (json_of_messages (messages p ++ [user_turn (c :: text)])));
                         Requested (payload_for (messages p ++ [user_turn (c :: text)]))]
                |}) as [Hs Hu]; assumption.
Qed.

(** *** The html field *)

(** C10.  In a send cycle whose response carries an [html] field, the
    markup is shown in the chat display and goes nowhere else: after the
    cycle the conversation is the earlier one plus the user turn plus the
    assistant turn made from a non-empty [reply], storage holds the
    serialization of exactly that, the next load restores exactly that,
    and none of the three depends on the [html] field. *)
Theorem html_field_is_shown_not_stored
    (p : Page) (c : code_unit) (text : jsstring) (data : ChatData) :
  trim (userInput_value p) = c :: text ->
  let kept := messages p ++ [user_turn (c :: text)] ++ reply_turns (reply data) in
  let after d := run (sendMessage_resume marked_parse (Data d))
                     (snd (sendMessage marked_parse p)) in
  chatBox (after data)
  = chatBox p ++ [user_bubble (c :: text)] ++ response_bubbles marked_parse data
  /\ messages (after data) = kept
  /\ gene_history (after data) = Some (Json.stringify (json_of_messages kept))
  /\ restore (gene_history (after data)) = Json.Parsed (json_of_messages kept) []
  /\ (forall other,
        messages (after {| reply := reply data; html := other |}) = messages (after data)
        /\ gene_history (after {| reply := reply data; html := other |})
           = gene_history (after data)).
Proof.
  intros H kept after.
  assert (E : forall d,
             messages (after d) = messages p ++ [user_turn (c :: text)] ++ reply_turns (reply d)
             /\ gene_history (after d)
                = Some (Json.stringify
                          (json_of_messages
                             (messages p ++ [user_turn (c :: text)]
                              ++ reply_turns (reply d))))
             /\ chatBox (after d)
                = chatBox p ++ [user_bubble (c :: text)] ++ response_bubbles marked_parse d).
  { intro d. destruct (send_cycle p d H) as [_ E2]. cbv zeta in E2.
    subst after. cbv beta. rewrite E2. project. rewrite <- !app_assoc. repeat split. }
  destruct (E data) as (Em & Eg & Ec).
  split; [exact Ec|]. split; [exact Em|]. split; [exact Eg|].
  split; [rewrite Eg; apply restore_saved|].
  intro other. destruct (E {| reply := reply data; html := other |}) as (Em' & Eg' & _).
  cbn [reply] in Em', Eg'. rewrite Em, Eg, Em', Eg'. split; reflexivity.
Qed.

(** *** A whole session *)

Lemma renderMessage_bubble (m : Turn) (p : Page) :
  run (renderMessage marked_parse (role m) (content m)) p
  = run (set_chatBox (chatBox p ++ [bubble_of marked_parse m])) p.
Proof.
  unfold bubble_of, renderMessage, run, bind, read.
  destruct (jsstring_eqb (role m) (lit "user")); reflexivity.
Qed.

(** Rendering the history adds one bubble per turn and touches nothing
    else. *)
Lemma renderHistory_frame (ms : list Turn) (p : Page) :
  run (renderHistory marked_parse ms) p
  = run (set_chatBox (chatBox p ++ List.map (bubble_of marked_parse) ms)) p.
Proof.
  revert p. induction ms as [|m ms IH]; intro p.
  - cbn [List.map]. rewrite app_nil_r. destruct p; reflexivity.
  - change (run (renderHistory marked_parse (m :: ms)) p)
      with (run (renderHistory marked_parse ms)
              (run (renderMessage marked_parse (role m) (content m)) p)).
    rewrite IH, renderMessage_bubble.
    unfold run, set_chatBox, modify. project.
    rewrite <- app_assoc. reflexivity.
Qed.

(** A page loaded from what [saveHistory] wrote, or from nothing, starts
    reconciled. *)
Lemma page_at_load_reconciled (indicator : option bool) :
  (forall ms, reconciled (page_at_load marked_parse
                            (Some (Json.stringify (json_of_messages ms))) ms indicator))
  /\ reconciled (page_at_load marked_parse None [] indicator).
Proof.
  split; [intro ms | reflexivity].
  unfold reconciled, page_at_load. rewrite renderHistory_frame. reflexivity.
Qed.

(** Storage and memory agree on every page of a session that starts
    reconciled. *)
Lemma reachable_reconciled (start p : Page) :
  reconciled start -> reachable marked_parse start p -> reconciled p.
Proof.
  intros Hs Hr. induction Hr as [|e p Hr IH]; [exact Hs|].
  apply handle_keeps_reconciled. exact IH.
Qed.

End ControllerClaims.

(** C8, counterexample.  An [<img>] tag without attributes, and one
    written in capitals, reach the chat display as they are, without any
    style. *)
Lemma img_tags_left_unstyled :
  (forall marked_parse,
      assistant_html marked_parse (lit "<img>") = lit "<img>"
      /\ includes (lit "style") (assistant_html marked_parse (lit "<img>")) = false)
  /\ (forall marked_parse,
        assistant_html marked_parse (lit "<IMG src='a.png'>") = lit "<IMG src='a.png'>"
        /\ includes (lit "style")
             (assistant_html marked_parse (lit "<IMG src='a.png'>")) = false).
Proof. repeat split. Qed.

(** ** The properties at work on a concrete page *)

(** C9 at work: three spaces typed into a fresh page. *)
Lemma blank_submit_witness :
  sendMessage paragraph (typed (lit "   ")) = (None, typed (lit "   "))
  /\ run (handle paragraph Submit) (typed (lit "   ")) = typed (lit "   ").
Proof.
  apply (blank_submit_does_nothing paragraph (typed (lit "   "))). reflexivity.
Defined.

(** C6 at work: " hello " is sent from a fresh page and answered. *)
Lemma send_cycle_order_witness :
  effects (run (sendMessage_resume paragraph (Data hi_there))
             (snd (sendMessage paragraph (typed (lit " hello ")))))
  = effects (snd (sendMessage paragraph (typed (lit " hello "))))
    ++ [Responded]
    ++ [Pushed (assistant_turn (lit "hi there"))]
    ++ [Persisted
          (Json.stringify
             (json_of_messages [user_turn (lit "hello"); assistant_turn (lit "hi there")]))].
Proof.
  apply (send_cycle_order paragraph (typed (lit " hello ")) hi_there
           (c := 104%N) (text := lit "ello")).
  reflexivity.
Defined.

(** C7 at work: "hello" is sent from a fresh page and the fetch is
    rejected. *)
Lemma failed_request_witness :
  sendBtn_disabled
    (run (sendMessage_resume paragraph NetworkError)
       (snd (sendMessage paragraph (typed (lit "hello"))))) = true.
Proof.
  apply (failed_request_is_not_recovered paragraph (typed (lit "hello")) NetworkError
           (c := 104%N) (text := lit "ello")); reflexivity.
Defined.

(** C10 at work: the answer to "hello" carries a reply and an iframe. *)
Lemma html_field_witness :
  messages (run (sendMessage_resume paragraph (Data hi_there))
              (snd (sendMessage paragraph (typed (lit "hello")))))
  = [user_turn (lit "hello"); assistant_turn (lit "hi there")].
Proof.
  apply (html_field_is_shown_not_stored paragraph (typed (lit "hello")) hi_there
           (c := 104%N) (text := lit "ello")).
  reflexivity.
Defined.

(** ** Examples *)

Example iframe_is_inserted_raw :
  forall marked_parse,
    assistant_html marked_parse (lit "<iframe src='viewer'></iframe>")
    = lit "<iframe src='viewer'></iframe>".
Proof. reflexivity. Qed.

Example bold_goes_through_markdown :
  forall marked_parse,
    assistant_html marked_parse (lit "**bold**") = fix_images (marked_parse (lit "**bold**")).
Proof. reflexivity. Qed.

Example comparison_goes_through_markdown :
  containsHTML (lit "if a < b then c > d") = false
  /\ containsHTML (lit "x <3 and y> z") = false
  /\ containsHTML (lit "a <b and c> d") = true.
Proof. repeat split. Qed.

Example image_is_restyled :
  fix_images (lit "<p><img src='a.png'> <img src='b.png'></p>")
  = lit "<p><img style='max-width:100%; height:auto; display:block; margin:10px 0;' src='a.png'> <img style='max-width:100%; height:auto; display:block; margin:10px 0;' src='b.png'></p>".
Proof. reflexivity. Qed.

Example user_markup_stays_text :
  chatBox (run (renderMessage paragraph (lit "user") (lit "<b>x</b>")) fresh_page)
  = [{| className := lit "message user"; body := TextContent (lit "<b>x</b>") |}].
Proof. reflexivity. Qed.

Example trim_strips_both_ends :
  trim (lit "  hello there ") = lit "hello there"
  /\ trim [160; 104; 105; 8232; 10]%N = lit "hi"
  /\ trim (lit "   ") = lit "".
Proof. repeat split. Qed.

Example quote_escapes :
  Json.quote [104; 34; 10; 92; 1; 55357; 56832; 56832]%N
  = [34; 104; 92; 34; 92; 110; 92; 92; 92; 117; 48; 48; 48; 49; 55357; 56832;
     92; 117; 100; 101; 48; 48; 34]%N.
Proof. reflexivity. Qed.

Example parse_accepts_and_rejects :
  Json.parse (lit " [ 1 , -2.5e+3 , true , null , { } ] ")
  = Json.Parsed
      (Json.JArray [Json.JNumber (lit "1"); Json.JNumber (lit "-2.5e+3");
                    Json.JBool true; Json.JNull; Json.JObject []]) []
  /\ Json.parse (lit "[1,]") = Json.SyntaxError
  /\ Json.parse (lit "01") = Json.SyntaxError
  /\ Json.parse (lit "") = Json.SyntaxError.
Proof. repeat split. Qed.

(** The scenario of the specification: the user sends "hello" and the
    backend answers [{ reply: "hi there" }]. *)
Example hello_scenario :
  let waiting := snd (sendMessage paragraph (typed (lit "hello"))) in
  let done :=
    run (sendMessage_resume paragraph
           (Data {| reply := Some (lit "hi there"); html := None |})) waiting in
  messages waiting = [user_turn (lit "hello")]
  /\ gene_history waiting
     = Some (Json.stringify (json_of_messages [user_turn (lit "hello")]))
  /\ sendBtn_disabled waiting = true /\ userInput_disabled waiting = true
  /\ typing_hidden waiting = Some false
  /\ messages done = [user_turn (lit "hello"); assistant_turn (lit "hi there")]
  /\ gene_history done
     = Some (Json.stringify
               (json_of_messages [user_turn (lit "hello"); assistant_turn (lit "hi there")]))
  /\ chatBox done
     = [user_bubble (lit "hello");
        {| className := lit "message assistant";
           body := InnerHTML (lit "<p>hi there</p>") |}]
  /\ sendBtn_disabled done = false /\ userInput_disabled done = false
  /\ typing_hidden done = Some true
  /\ restore (gene_history done)
     = Json.Parsed
         (json_of_messages [user_turn (lit "hello"); assistant_turn (lit "hi there")]) [].
Proof. repeat split. Qed.

Example clear_then_restore :
  forall p, restore (gene_history (run clearChat p)) = Json.Parsed (json_of_messages []) [].
Proof. reflexivity. Qed.

Example window_of_25_turns :
  let numbered := List.map (fun n => user_turn [N.of_nat n]) (seq 0 25) in
  fst (getLlmMessages (run (set_messages numbered) fresh_page))
  = List.map (fun n => user_turn [N.of_nat n]) (seq 5 20).
Proof. reflexivity. Qed.

(** ** Beyond one handler: sessions *)

Lemma jsstring_eqb_eq (a b : jsstring) : jsstring_eqb a b = true <-> a = b.
Proof.
  revert b. induction a as [|x a IH]; intros [|y b]; simpl;
    try (split; [discriminate | congruence]); [tauto|].
  rewrite andb_true_iff, N.eqb_eq, IH. split; [intros [-> ->]; reflexivity|].
  intro E. injection E as -> ->. auto.
Qed.

Lemma Some_eq (A : Type) (a b : A) : Some a = Some b -> a = b.
Proof. congruence. Qed.

Lemma jsstring_eqb_refl (a : jsstring) : jsstring_eqb a a = true.
Proof. apply jsstring_eqb_eq. reflexivity. Qed.

Lemma jsstring_eqb_neq (a b : jsstring) : jsstring_eqb a b = false <-> a <> b.
Proof.
  rewrite <- jsstring_eqb_eq. destruct (jsstring_eqb a b); split; congruence.
Qed.

(** *** The request body *)

Lemma parse_messages_value (extra : nat) (ms : list Turn) (rest : jsstring) :
  Json.parse_value (S (length ms + (4 + extra)))
    (Json.stringify (json_of_messages ms) ++ rest)
  = Json.Parsed (json_of_messages ms) rest.
Proof.
  destruct ms as [|t ms]; [reflexivity|].
  rewrite stringify_messages.
  destruct (stringify_turn_starts t) as (more & Et).
  assert (Hj : exists more',
             Json.join (lit ",") (List.map (fun t => Json.stringify (json_of_turn t)) (t :: ms))
             = lit "{" ++ more').
  { destruct ms; cbn [List.map Json.join]; rewrite Et; [eauto|].
    rewrite <- app_assoc. eauto. }
  destruct Hj as (more' & Hj).
  pose proof (parse_turns extra t ms rest) as Hp.
  rewrite Hj in *. rewrite <- !app_assoc in *.
  rewrite JsonFacts.parse_value_array, Hp. reflexivity.
Qed.

(** An object with one member, whatever its value. *)
Lemma parse_members_single (fuel : nat) (k vtext : jsstring) (v : Json.json)
      (rest : jsstring) :
  Json.parse_value fuel (vtext ++ lit "}" ++ rest) = Json.Parsed v (lit "}" ++ rest) ->
  Json.parse_members (S fuel) (Json.quote k ++ lit ":" ++ vtext ++ lit "}" ++ rest)
  = Json.Parsed [(k, v)] rest.
Proof.
  JsonFacts.punctuate. intro H. cbn [app] in H. rewrite JsonFacts.quote_app.
  cbn [Json.parse_members]. JsonFacts.step_text.
  rewrite JsonFacts.parse_quote_units. JsonFacts.step_text.
  rewrite H. JsonFacts.step_text. reflexivity.
Qed.

Lemma request_body_eq (w : list Turn) :
  request_body w
  = lit "{" ++ Json.quote (lit "messages") ++ lit ":"
    ++ Json.stringify (json_of_messages w) ++ lit "}" ++ [].
Proof.
  unfold request_body.
  change (Json.stringify (Json.JObject [(lit "messages", json_of_messages w)]))
    with (lit "{" ++ (Json.quote (lit "messages") ++ lit ":"
                      ++ Json.stringify (json_of_messages w)) ++ lit "}").
  rewrite app_nil_r, <- !app_assoc. reflexivity.
Qed.

(** The request body is JSON for an object whose [messages] member is the
    array of the turns sent. *)
Lemma parse_request_body (w : list Turn) :
  Json.parse (request_body w)
  = Json.Parsed (Json.JObject [(lit "messages", json_of_messages w)]) [].
Proof.
  unfold Json.parse.
  assert (Hlen : length w + 5 <= length (request_body w)).
  { rewrite request_body_eq, !length_app.
    pose proof (length_stringify_messages w).
    change (length (lit "{")) with 1. change (length (lit "}")) with 1.
    change (length (lit ":")) with 1. lia. }
  remember (length (request_body w)) as n eqn:En.
  replace (2 * n + 2)
    with (S (S (S (length w + (4 + (2 * n + 2 - (length w + 7))))))) by lia.
  clear En Hlen. rewrite request_body_eq.
  rewrite JsonFacts.parse_value_object.
  rewrite (@parse_members_single _ _ _ (json_of_messages w));
    [reflexivity | apply parse_messages_value].
Qed.

(** *** What trimming leaves *)

Lemma trimStart_split (s : jsstring) :
  exists pre, s = pre ++ trimStart s /\ forallb is_js_whitespace pre = true.
Proof.
  induction s as [|c s (pre & E & Hpre)]; [exists []; auto|].
  simpl. destruct (is_js_whitespace c) eqn:Ec.
  - exists (c :: pre). simpl. rewrite Ec, Hpre, <- E. auto.
  - exists []. auto.
Qed.

Lemma trimEnd_split (s : jsstring) :
  exists suf, s = trimEnd s ++ suf /\ forallb is_js_whitespace suf = true.
Proof.
  unfold trimEnd. destruct (trimStart_split (rev s)) as (pre & E & Hpre).
  exists (rev pre). split.
  - rewrite <- rev_app_distr, <- E, rev_involutive. reflexivity.
  - rewrite forallb_rev. exact Hpre.
Qed.

Lemma trimEnd_last (s t : jsstring) (c : code_unit) :
  trimEnd s = t ++ [c] -> is_js_whitespace c = false.
Proof.
  unfold trimEnd. intro H. apply (f_equal (@rev code_unit)) in H.
  rewrite rev_involutive, rev_app_distr in H. simpl in H.
  apply trimStart_head in H. exact H.
Qed.

(** [trim] cuts white space off both ends and nothing else: what is left
    starts and ends with something that is not white space. *)
Lemma trim_split (s : jsstring) :
  exists pre suf,
    s = pre ++ trim s ++ suf
    /\ forallb is_js_whitespace pre = true
    /\ forallb is_js_whitespace suf = true
    /\ (forall c t, trim s = c :: t -> is_js_whitespace c = false)
    /\ (forall t c, trim s = t ++ [c] -> is_js_whitespace c = false).
Proof.
  unfold trim.
  destruct (trimStart_split s) as (pre & E & Hpre).
  destruct (trimEnd_split (trimStart s)) as (suf & E' & Hsuf).
  exists pre, suf. split; [rewrite <- E', <- E; reflexivity|].
  split; [exact Hpre|]. split; [exact Hsuf|]. split.
  - intros c t H. rewrite H in E'. simpl in E'.
    apply trimStart_head in E'. exact E'.
  - intros t c H. apply trimEnd_last in H. exact H.
Qed.

Lemma truthy_some (field : option jsstring) (x : jsstring) :
  truthy field = Some x -> field = Some x /\ x <> [].
Proof.
  destruct field as [[|c s]|]; simpl; try discriminate.
  intro H. injection H as <-. split; [reflexivity | discriminate].
Qed.

Section Sessions.

Variable marked_parse : jsstring -> jsstring.

Ltac fields :=
  cbn [fst snd messages gene_history chatBox userInput_value userInput_disabled
       sendBtn_disabled typing_hidden effects].

(** The page after a submit with [text] left by the trim. *)
Lemma handle_submit (p : Page) (text : jsstring) :
  trim (userInput_value p) = text -> text <> [] ->
  run (handle marked_parse Submit) p
  = {| messages := messages p ++ [user_turn text];
       gene_history :=
         Some (Json.stringify (json_of_messages (messages p ++ [user_turn text])));
       chatBox := chatBox p ++ [user_bubble text];
       userInput_value := lit "";
       userInput_disabled := true;
       sendBtn_disabled := true;
       typing_hidden := option_map (fun _ => false) (typing_hidden p);
       effects :=
         effects p
         ++ [Pushed (user_turn text);
             Persisted (Json.stringify (json_of_messages (messages p ++ [user_turn text])));
             Requested (payload_for (messages p ++ [user_turn text]))] |}.
Proof.
  intros H Hne. unfold run, handle, bind.
  rewrite (@sendMessage_submits marked_parse p text H Hne). reflexivity.
Qed.

Lemma handle_submit_blank (p : Page) :
  trim (userInput_value p) = [] -> run (handle marked_parse Submit) p = p.
Proof.
  intro H. unfold run, handle, bind.
  rewrite (sendMessage_blank marked_parse p H). reflexivity.
Qed.

Lemma session_cons (e : Event) (es : list Event) (p : Page) :
  session marked_parse (e :: es) p
  = session marked_parse es (run (handle marked_parse e) p).
Proof. reflexivity. Qed.

(** What every handler preserves holds all along a session. *)
Lemma session_invariant (I : Page -> Prop) :
  (forall e p, I p -> I (run (handle marked_parse e) p)) ->
  forall es p, I p -> I (session marked_parse es p).
Proof.
  intros Hstep es. induction es as [|e es IH]; intros p Hp; [exact Hp|].
  rewrite session_cons. apply IH, Hstep, Hp.
Qed.

Lemma page_at_load_eq (stored : option jsstring) (ms : list Turn) (indicator : option bool) :
  page_at_load marked_parse stored ms indicator
  = {| messages := ms; gene_history := stored;
       chatBox := List.map (bubble_of marked_parse) ms;
       userInput_value := lit ""; userInput_disabled := false;
       sendBtn_disabled := false; typing_hidden := indicator; effects := [] |}.
Proof. unfold page_at_load. rewrite renderHistory_frame. reflexivity. Qed.

Lemma json_of_messages_inj (a b : list Turn) :
  json_of_messages a = json_of_messages b -> a = b.
Proof.
  unfold json_of_messages. intro H. injection H as H.
  revert b H. induction a as [|x a IH]; intros [|y b] H; try discriminate; [reflexivity|].
  simpl in H. injection H as Hr Hc H.
  destruct x, y. simpl in *. subst. f_equal. apply IH, H.
Qed.

(** X1.  What [saveHistory] writes, the restore expression of the next
    load reads back as the same turns in the same order, whatever the
    turns contain; so two conversations that differ are never stored as
    the same text. *)
Theorem save_then_restore (p : Page) :
  restore (gene_history (run saveHistory p)) = Json.Parsed (json_of_messages (messages p)) []
  /\ messages (run saveHistory p) = messages p
  /\ (forall q, gene_history (run saveHistory q) = gene_history (run saveHistory p) ->
                messages q = messages p).
Proof.
  split; [apply restore_saved|]. split; [reflexivity|].
  intros q H.
  change (Some (Json.stringify (json_of_messages (messages q)))
          = Some (Json.stringify (json_of_messages (messages p)))) in H.
  apply Some_eq in H.
  apply json_of_messages_inj.
  pose proof (parse_stringify_messages (messages q)) as Hq.
  pose proof (parse_stringify_messages (messages p)) as Hp.
  rewrite H in Hq. rewrite Hq in Hp. injection Hp as Hp.
  unfold json_of_messages. rewrite Hp. reflexivity.
Qed.

(** X2.  Reloading at any point of a session gets the conversation back:
    on every page a run of events leads to from a load of saved history
    (or of no history), the restore expression applied to storage yields
    the conversation in memory. *)
Theorem reload_restores_conversation
    (ms : list Turn) (indicator : option bool) (es : list Event) :
  (let p := session marked_parse es
              (page_at_load marked_parse
                 (Some (Json.stringify (json_of_messages ms))) ms indicator) in
   restore (gene_history p) = Json.Parsed (json_of_messages (messages p)) [])
  /\ (let p := session marked_parse es (page_at_load marked_parse None [] indicator) in
      restore (gene_history p) = Json.Parsed (json_of_messages (messages p)) []).
Proof.
  assert (H : forall p, reconciled p ->
                restore (gene_history p) = Json.Parsed (json_of_messages (messages p)) []).
  { intros p Hp. unfold restore. rewrite Hp. apply parse_stringify_messages. }
  destruct (page_at_load_reconciled marked_parse indicator) as [Hs Hn].
  split; cbv zeta; apply H;
    apply (session_invariant reconciled (handle_keeps_reconciled marked_parse)); auto.
Qed.

(** X3.  The request a submit issues carries the context window taken
    after the user turn was appended: at most 20 turns, the most recent
    ones, the last of them being the turn just sent.  Its body is JSON
    that parses to an object whose [messages] member is that array of
    turns. *)
Theorem request_carries_the_new_turn (p : Page) (c : code_unit) (text : jsstring) :
  trim (userInput_value p) = c :: text ->
  exists older before,
    let window := before ++ [user_turn (c :: text)] in
    fst (sendMessage marked_parse p) = Some (request_body window)
    /\ messages p = older ++ before
    /\ length window = Nat.min 20 (S (length (messages p)))
    /\ Json.parse (request_body window)
       = Json.Parsed (Json.JObject [(lit "messages", json_of_messages window)]) [].
Proof.
  intro H.
  set (k := length (messages p ++ [user_turn (c :: text)]) - 20).
  assert (Hk : k <= length (messages p)).
  { subst k. rewrite length_app. simpl. lia. }
  exists (firstn k (messages p)), (skipn k (messages p)). cbv zeta.
  assert (Hw : Array_slice (- MAX_CONTEXT_MESSAGES) (messages p ++ [user_turn (c :: text)])
               = skipn k (messages p) ++ [user_turn (c :: text)]).
  { change (- MAX_CONTEXT_MESSAGES)%Z with (- Z.of_nat 20)%Z.
    rewrite Array_slice_last by lia. fold k.
    rewrite skipn_app. replace (k - length (messages p)) with 0 by lia. reflexivity. }
  split; [|split; [|split]].
  - rewrite (@sendMessage_submits marked_parse p (c :: text) H ltac:(discriminate)).
    cbn [fst]. unfold payload_for. rewrite Hw. reflexivity.
  - symmetry. apply firstn_skipn.
  - rewrite length_app, length_skipn. subst k. rewrite length_app.
    cbn [length]. lia.
  - apply parse_request_body.
Qed.

(** X4.  A submit either finds nothing but white space in the input and
    leaves the page alone, or appends a user turn whose content is the
    input without the white space at its two ends: it is not empty, it
    neither starts nor ends with white space, and the input field is
    emptied. *)
Theorem user_turn_is_the_trimmed_input (p : Page) :
  let p' := snd (sendMessage marked_parse p) in
  (forallb is_js_whitespace (userInput_value p) = true /\ p' = p)
  \/ (exists pre text suf,
        userInput_value p = pre ++ text ++ suf
        /\ forallb is_js_whitespace pre = true
        /\ forallb is_js_whitespace suf = true
        /\ (exists c t, text = c :: t /\ is_js_whitespace c = false)
        /\ (exists t c, text = t ++ [c] /\ is_js_whitespace c = false)
        /\ messages p' = messages p ++ [user_turn text]
        /\ userInput_value p' = lit "").
Proof.
  cbv zeta. destruct (trim (userInput_value p)) as [|c t] eqn:E.
  - left. split; [apply trim_blank; exact E|].
    rewrite (sendMessage_blank marked_parse p E). reflexivity.
  - right. destruct (trim_split (userInput_value p)) as (pre & suf & Es & Hpre & Hsuf & Hh & Hl).
    rewrite E in Es, Hh, Hl.
    exists pre, (c :: t), suf. split; [exact Es|]. split; [exact Hpre|].
    split; [exact Hsuf|]. split; [exists c, t; split; [reflexivity | apply (Hh c t eq_refl)]|].
    split.
    + destruct (exists_last (l := c :: t) ltac:(discriminate)) as (t' & d & Ed).
      exists t', d. split; [exact Ed|]. apply (Hl t' d Ed).
    + rewrite (@sendMessage_submits marked_parse p (c :: t) E ltac:(discriminate)).
      fields. split; reflexivity.
Qed.




(** X6.  Clearing the chat while a request is pending does not cancel it:
    when the response arrives with a non-empty reply, the conversation and
    the stored history hold the assistant turn alone, the display shows
    the bubbles of the response alone, and the controls are enabled
    again. *)
Theorem clear_while_pending_keeps_the_reply
    (p : Page) (c : code_unit) (text : jsstring) (data : ChatData) (answer : jsstring) :
  trim (userInput_value p) = c :: text ->
  truthy (reply data) = Some answer ->
  let p' := session marked_parse [Submit; Clear; Settled (Data data)] p in
  messages p' = [assistant_turn answer]
  /\ gene_history p' = Some (Json.stringify (json_of_messages [assistant_turn answer]))
  /\ chatBox p' = response_bubbles marked_parse data
  /\ sendBtn_disabled p' = false /\ userInput_disabled p' = false.
Proof.
  intros H Hr. cbv zeta. rewrite !session_cons.
  rewrite (@handle_submit p (c :: text) H ltac:(discriminate)).
  change (session marked_parse [] ?q) with q.
  change (run (handle marked_parse (Settled (Data data))) ?q)
    with (run (sendMessage_resume marked_parse (Data data)) q).
  rewrite sendMessage_resume_data. change (handle marked_parse Clear) with clearChat.
  rewrite clearChat_eq. fields. unfold reply_turns. rewrite Hr. repeat split.
Qed.

(** *** Loading *)












Lemma handle_grows (e : Event) (p : Page) :
  (e = Clear /\ messages (run (handle marked_parse e) p) = [])
  \/ (exists added,
        messages (run (handle marked_parse e) p) = messages p ++ added
        /\ length added <= 1
        /\ Forall well_formed_turn added).
Proof.
  destruct e as [value | | | r].
  - right. exists []. rewrite app_nil_r. repeat split; [simpl; lia | constructor].
  - right. destruct (trim (userInput_value p)) as [|c t] eqn:E.
    + rewrite (handle_submit_blank p E). exists []. rewrite app_nil_r.
      repeat split; [simpl; lia | constructor].
    + rewrite (@handle_submit p (c :: t) E ltac:(discriminate)). fields.
      exists [user_turn (c :: t)]. repeat split; [simpl; lia|].
      constructor; [|constructor]. split; [left; reflexivity | discriminate].
  - left. split; reflexivity.
  - right. destruct r as [| | data].
    + exists []. rewrite app_nil_r. repeat split; [simpl; lia | constructor].
    + exists []. rewrite app_nil_r. repeat split; [simpl; lia | constructor].
    + change (run (handle marked_parse (Settled (Data data))) p)
        with (run (sendMessage_resume marked_parse (Data data)) p).
      rewrite sendMessage_resume_data. fields.
      exists (reply_turns (reply data)). split; [reflexivity|].
      unfold reply_turns. destruct (truthy (reply data)) as [answer|] eqn:Er.
      * apply truthy_some in Er as [_ Hne].
        split; [simpl; lia|]. constructor; [|constructor].
        split; [right; reflexivity | exact Hne].
      * split; [simpl; lia | constructor].
Qed.

(** X9.  Only a clear removes turns.  Every other handler keeps the
    conversation as a prefix and adds at most one turn, and a turn it adds
    is from the user or the assistant and is not empty; so a conversation
    built from no history holds only such turns. *)
Theorem conversation_only_grows (e : Event) (p : Page) (indicator : option bool)
    (es : list Event) :
  ((e = Clear /\ messages (run (handle marked_parse e) p) = [])
   \/ (exists added,
         messages (run (handle marked_parse e) p) = messages p ++ added
         /\ length added <= 1
         /\ Forall well_formed_turn added))
  /\ Forall well_formed_turn
       (messages (session marked_parse es (page_at_load marked_parse None [] indicator))).
Proof.
  split; [apply handle_grows|].
  apply (session_invariant (fun q => Forall well_formed_turn (messages q))).
  - clear. intros e p Hp. destruct (handle_grows e p) as [[_ ->] | (added & -> & _ & Ha)].
    + constructor.
    + apply Forall_app. split; assumption.
  - rewrite page_at_load_eq. constructor.
Qed.

End Sessions.

(** ** More on the renderer's test *)

Lemma tag_shaped_inside (a s b : jsstring) : tag_shaped s -> tag_shaped (a ++ s ++ b).
Proof.
  unfold tag_shaped. intros (pre & slash & l & mid & post & -> & Hs & Hl).
  exists (a ++ pre), slash, l, mid, (post ++ b). split; [|auto].
  rewrite <- !app_assoc. reflexivity.
Qed.

Lemma tag_shaped_has_brackets (s : jsstring) : tag_shaped s -> In LT s /\ In GT s.
Proof.
  unfold tag_shaped. intros (pre & slash & l & mid & post & -> & _ & _). split.
  - rewrite !in_app_iff. right. left. left. reflexivity.
  - rewrite !in_app_iff. do 5 right. left. left. reflexivity.
Qed.

(** X10.  A reply without a [<] or without a [>] is always converted from
    markdown; a reply that the test accepts is inserted raw as a whole,
    and so is any reply that contains it: markdown around a tag is not
    converted. *)
Theorem raw_or_markdown_is_all_or_nothing
    (marked_parse : jsstring -> jsstring) (content : jsstring) :
  (~ In LT content \/ ~ In GT content ->
   containsHTML content = false
   /\ assistant_html marked_parse content = fix_images (marked_parse content))
  /\ (containsHTML content = true ->
      forall before after,
        containsHTML (before ++ content ++ after) = true
        /\ assistant_html marked_parse (before ++ content ++ after)
           = fix_images (before ++ content ++ after)).
Proof.
  split.
  - intro H.
    assert (Hn : ~ tag_shaped content).
    { intro Ht. apply tag_shaped_has_brackets in Ht as [Hl Hg]. tauto. }
    split; [apply not_tag_shaped; exact Hn|].
    unfold assistant_html. rewrite raw_or_markdown_markdown by exact Hn. reflexivity.
  - intros H before after.
    assert (Ht : tag_shaped (before ++ content ++ after)).
    { apply tag_shaped_inside, containsHTML_spec, H. }
    split; [apply containsHTML_spec; exact Ht|].
    unfold assistant_html. rewrite raw_or_markdown_raw by exact Ht. reflexivity.
Qed.

(** ** The keydown listener *)

(** X11.  Enter sends unless Shift is held, whatever the other modifier
    keys: the listener prevents the default action and runs [sendMessage];
    on an input with nothing but white space it still prevents the default
    action, and nothing is sent.  Shift+Enter and every other key leave the
    page alone and the default action in place. *)
Theorem enter_sends_unless_shift
    (marked_parse : jsstring -> jsstring) (e : KeyboardEvent) (p : Page) :
  (key e = lit "Enter" -> shiftKey e = false ->
   onKeydown marked_parse e p
   = (true, fst (sendMessage marked_parse p), snd (sendMessage marked_parse p))
   /\ (forallb is_js_whitespace (userInput_value p) = true ->
       onKeydown marked_parse e p = (true, None, p)))
  /\ (key e <> lit "Enter" \/ shiftKey e = true ->
      onKeydown marked_parse e p = (false, None, p)).
Proof.
  unfold onKeydown. split.
  - intros Hk Hs. rewrite Hk, Hs, jsstring_eqb_refl. cbn [andb negb].
    assert (E : forall q, (request <- sendMessage marked_parse ;; ret (true, request)) p = q
                          -> q = (true, fst (sendMessage marked_parse p),
                                  snd (sendMessage marked_parse p))).
    { intros q <-. unfold bind, ret. destruct (sendMessage marked_parse p). reflexivity. }
    split; [apply E; reflexivity|].
    intro Hb. apply trim_blank in Hb.
    rewrite (E _ eq_refl), (sendMessage_blank marked_parse p Hb). reflexivity.
  - intros [Hk | Hs].
    + apply jsstring_eqb_neq in Hk. rewrite Hk. reflexivity.
    + rewrite Hs, andb_false_r. reflexivity.
Qed.

(** ** The theme toggle *)

Lemma contains_filtered (token other : jsstring) (classes : list jsstring) :
  classList_contains other (filter (fun c => negb (jsstring_eqb token c)) classes)
  = classList_contains other classes && negb (jsstring_eqb token other).
Proof.
  unfold classList_contains. induction classes as [|c classes IH]; [reflexivity|].
  simpl. destruct (jsstring_eqb token c) eqn:Etc; simpl; rewrite IH.
  - apply jsstring_eqb_eq in Etc. subst c.
    destruct (jsstring_eqb other token) eqn:Eo; [|reflexivity].
    apply jsstring_eqb_eq in Eo. subst other. rewrite jsstring_eqb_refl.
    simpl. apply andb_false_r.
  - destruct (jsstring_eqb other c) eqn:Eo; [|reflexivity].
    apply jsstring_eqb_eq in Eo. subst c. rewrite Etc. reflexivity.
Qed.

Lemma contains_appended (token other : jsstring) (classes : list jsstring) :
  classList_contains other (classes ++ [token])
  = classList_contains other classes || jsstring_eqb other token.
Proof.
  unfold classList_contains. rewrite existsb_app. simpl. rewrite orb_false_r. reflexivity.
Qed.

Lemma filter_absent (token : jsstring) (classes : list jsstring) :
  classList_contains token classes = false ->
  filter (fun c => negb (jsstring_eqb token c)) classes = classes.
Proof.
  unfold classList_contains. induction classes as [|c classes IH]; [reflexivity|].
  simpl. intro H. apply orb_false_iff in H as [Hc H].
  rewrite Hc. simpl. rewrite IH by exact H. reflexivity.
Qed.

Lemma toggle_flips (token : jsstring) (classes : list jsstring) :
  classList_contains token (classList_toggle token classes)
  = negb (classList_contains token classes).
Proof.
  unfold classList_toggle. destruct (classList_contains token classes) eqn:E.
  - rewrite contains_filtered, jsstring_eqb_refl. apply andb_false_r.
  - rewrite contains_appended, E, jsstring_eqb_refl. reflexivity.
Qed.

Lemma toggle_keeps_others (token other : jsstring) (classes : list jsstring) :
  other <> token ->
  classList_contains other (classList_toggle token classes)
  = classList_contains other classes.
Proof.
  intro Hne. unfold classList_toggle.
  assert (E1 : jsstring_eqb token other = false)
    by (apply jsstring_eqb_neq; congruence).
  assert (E2 : jsstring_eqb other token = false)
    by (apply jsstring_eqb_neq; exact Hne).
  destruct (classList_contains token classes).
  - rewrite contains_filtered, E1. apply andb_true_r.
  - rewrite contains_appended, E2. apply orb_false_r.
Qed.

Lemma toggle_present (token : jsstring) (classes : list jsstring) :
  classList_contains token classes = true ->
  classList_toggle token classes
  = filter (fun c => negb (jsstring_eqb token c)) classes.
Proof. intro E. unfold classList_toggle. rewrite E. reflexivity. Qed.

Lemma toggle_absent (token : jsstring) (classes : list jsstring) :
  classList_contains token classes = false ->
  classList_toggle token classes = classes ++ [token].
Proof. intro E. unfold classList_toggle. rewrite E. reflexivity. Qed.

Lemma toggle_twice_absent (token : jsstring) (classes : list jsstring) :
  classList_contains token classes = false ->
  classList_toggle token (classList_toggle token classes) = classes.
Proof.
  intro E. rewrite (toggle_absent _ _ E), toggle_present.
  - rewrite filter_app. simpl. rewrite jsstring_eqb_refl. simpl.
    rewrite app_nil_r. apply filter_absent, E.
  - rewrite contains_appended, jsstring_eqb_refl. apply orb_true_r.
Qed.

Lemma toggle_thrice (token : jsstring) (classes : list jsstring) :
  classList_toggle token (classList_toggle token (classList_toggle token classes))
  = classList_toggle token classes.
Proof.
  destruct (classList_contains token classes) eqn:E.
  - rewrite (toggle_present _ _ E). apply toggle_twice_absent.
    rewrite contains_filtered, jsstring_eqb_refl. apply andb_false_r.
  - rewrite (toggle_twice_absent _ _ E). reflexivity.
Qed.

(** X12.  A click on the theme toggle flips the [light] class of the body
    and leaves every other class as it was; the toggle then shows the sun
    exactly when the body is light and the moon otherwise; and from the
    first click on, two more clicks bring back exactly the same class list
    and icon. *)
Theorem theme_toggle_flips (t : Theme) :
  let t1 := themeToggle_onclick t in
  classList_contains (lit "light") (body_classList t1)
  = negb (classList_contains (lit "light") (body_classList t))
  /\ (forall other, other <> lit "light" ->
        classList_contains other (body_classList t1)
        = classList_contains other (body_classList t))
  /\ themeToggle_textContent t1
     = (if classList_contains (lit "light") (body_classList t) then MOON else SUN)
  /\ themeToggle_onclick (themeToggle_onclick t1) = t1.
Proof.
  cbv zeta. unfold themeToggle_onclick. cbn [body_classList themeToggle_textContent].
  split; [apply toggle_flips|]. split; [intros other H; apply toggle_keeps_others, H|].
  split.
  - rewrite toggle_flips. destruct (classList_contains (lit "light") (body_classList t)); reflexivity.
  - rewrite toggle_thrice. reflexivity.
Qed.

(** ** The copy buttons *)

Lemma Node_induction (P : Node -> Prop) :
  (forall data, P (TextNode data)) ->
  (forall localName classList kids, Forall P kids -> P (Element localName classList kids)) ->
  forall n, P n.
Proof.
  intros Ht He. fix IH 1. intros [data | localName classList kids]; [apply Ht|].
  apply He. induction kids as [|kid kids IHkids]; constructor; [apply IH | exact IHkids].
Qed.

Lemma querySelectorAll_element (selector : Node -> bool) localName classList kids :
  querySelectorAll selector (Element localName classList kids)
  = children_matching selector 0 kids.
Proof.
  cbn [querySelectorAll]. generalize 0.
  induction kids as [|kid kids IH]; intro i; [reflexivity|].
  cbn [children_matching]. rewrite <- IH. reflexivity.
Qed.

Lemma children_matching_app (selector : Node -> bool) (i : nat) (a b : list Node) :
  children_matching selector i (a ++ b)
  = children_matching selector i a ++ children_matching selector (i + length a) b.
Proof.
  revert i. induction a as [|kid a IH]; intro i.
  - simpl. rewrite Nat.add_0_r. reflexivity.
  - cbn [app children_matching length]. rewrite IH, <- !app_assoc.
    replace (S i + length a) with (i + S (length a)) by lia. reflexivity.
Qed.

(** *** References into a changing tree *)

Lemma update_nth_compose (A : Type) (i : nat) (f g : A -> A) (l : list A) :
  update_nth i g (update_nth i f l) = update_nth i (fun a => g (f a)) l.
Proof.
  revert i. induction l as [|a l IH]; intros [|i]; simpl; try reflexivity.
  rewrite IH. reflexivity.
Qed.

Lemma update_nth_id (A : Type) (i : nat) (l : list A) :
  update_nth i (fun a => a) l = l.
Proof.
  revert i. induction l as [|a l IH]; intros [|i]; simpl; try reflexivity.
  rewrite IH. reflexivity.
Qed.

Lemma update_nth_middle (A : Type) (f : A -> A) (done : list A) (a : A) (rest : list A) :
  update_nth (length done) f (done ++ a :: rest) = done ++ f a :: rest.
Proof.
  induction done as [|d done IH]; simpl; [reflexivity|]. rewrite IH. reflexivity.
Qed.

(** Visiting a block below child [i] changes child [i] alone, as a visit
    of that child would. *)
Lemma addCopyButton_below localName classList kids (i : nat) (block : NodeRef) :
  addCopyButton (Element localName classList kids) (i :: block)
  = Element localName classList (update_nth i (fun kid => addCopyButton kid block) kids).
Proof.
  unfold addCopyButton. cbn [node_at update_at].
  assert (H : update_nth i (fun kid => addCopyButton kid block) kids
              = match nth_error kids i with
                | Some kid =>
                    match node_at block kid with
                    | Some pre =>
                        match querySelector (has_class (lit "copy-btn")) pre with
                        | Some _ => kids
                        | None => update_nth i (update_at (appendChild copy_button) block) kids
                        end
                    | None => kids
                    end
                | None => kids
                end).
  { revert i. induction kids as [|kid kids IH]; intros [|i]; simpl; try reflexivity.
    - unfold addCopyButton. destruct (node_at block kid) as [pre|]; [|reflexivity].
      destruct (querySelector _ pre); reflexivity.
    - rewrite IH. destruct (nth_error kids i) as [k|]; [|reflexivity].
      destruct (node_at block k) as [pre|]; [|reflexivity].
      destruct (querySelector _ pre); reflexivity. }
  unfold addCopyButton in H. rewrite H.
  destruct (nth_error kids i) as [k|]; [|reflexivity].
  destruct (node_at block k) as [pre|]; [|reflexivity].
  destruct (querySelector _ pre); reflexivity.
Qed.

Lemma addCopyButtons_below localName classList kids (i : nat) (blocks : list NodeRef) :
  fold_left addCopyButton (List.map (cons i) blocks) (Element localName classList kids)
  = Element localName classList
      (update_nth i (fun kid => fold_left addCopyButton blocks kid) kids).
Proof.
  revert kids. induction blocks as [|block blocks IH]; intro kids.
  - simpl. rewrite update_nth_id. reflexivity.
  - cbn [List.map fold_left]. rewrite addCopyButton_below, IH, update_nth_compose.
    reflexivity.
Qed.

(** *** The loop, block by block *)

Lemma children_visits (i : nat) (kid : Node) (rest : list Node) :
  children_matching (is_element_named (lit "pre")) i (kid :: rest)
  = List.map (cons i) (visits kid)
    ++ children_matching (is_element_named (lit "pre")) (S i) rest.
Proof.
  cbn [children_matching]. unfold visits. rewrite map_app, <- app_assoc.
  destruct (is_element_named (lit "pre") kid); reflexivity.
Qed.

Lemma addCopyButtons_children localName classList (kids : list Node) :
  Forall (fun kid => fold_left addCopyButton (visits kid) kid = with_button kid) kids ->
  forall done extra,
    fold_left addCopyButton
      (children_matching (is_element_named (lit "pre")) (length done) kids)
      (Element localName classList (done ++ kids ++ extra))
    = Element localName classList (done ++ List.map with_button kids ++ extra).
Proof.
  induction 1 as [|kid kids Hkid _ IH]; intros done extra; [reflexivity|].
  rewrite children_visits, fold_left_app, addCopyButtons_below.
  cbn [app]. rewrite update_nth_middle, Hkid.
  specialize (IH (done ++ [with_button kid]) extra).
  rewrite length_app, Nat.add_comm in IH. cbn [length Nat.add] in IH.
  rewrite <- !app_assoc in IH. cbn [app] in IH. exact IH.
Qed.

Lemma addCopyButtons_visits (n : Node) :
  fold_left addCopyButton (visits n) n = with_button n.
Proof.
  induction n as [data | localName classList kids IH] using Node_induction;
    [reflexivity|].
  unfold visits. rewrite querySelectorAll_element.
  pose proof (addCopyButtons_children localName classList IH []) as Hc.
  cbn [length app] in Hc.
  pose proof (Hc []) as Hc0. rewrite !app_nil_r in Hc0.
  cbn [with_button].
  destruct (is_element_named (lit "pre") (Element localName classList kids)).
  - cbn [app fold_left]. unfold addCopyButton at 2. cbn [node_at].
    destruct (querySelector (has_class (lit "copy-btn")) (Element localName classList kids)).
    + exact Hc0.
    + cbn [update_at appendChild]. apply Hc.
  - exact Hc0.
Qed.

Lemma addCopyButtons_eq (parent : Node) :
  addCopyButtons parent = with_buttons_inside parent.
Proof.
  unfold addCopyButtons. cbv zeta. destruct parent as [data | localName classList kids];
    [reflexivity|].
  rewrite querySelectorAll_element.
  assert (H : Forall (fun kid => fold_left addCopyButton (visits kid) kid = with_button kid)
                kids).
  { apply Forall_forall. intros kid _. apply addCopyButtons_visits. }
  pose proof (addCopyButtons_children localName classList H [] []) as Hc.
  cbn [length app] in Hc. rewrite !app_nil_r in Hc. exact Hc.
Qed.

(** *** What the selectors see after the run *)

Lemma contains_matching_spec (selector : Node -> bool) (n : Node) :
  contains_matching selector n
  = match querySelector selector n with Some _ => true | None => false end.
Proof.
  induction n as [data | localName classList kids IH] using Node_induction;
    [reflexivity|].
  unfold querySelector. rewrite querySelectorAll_element. cbn [contains_matching].
  generalize 0. induction IH as [|kid kids Hkid _ IHkids]; intro i; [reflexivity|].
  cbn [existsb children_matching]. rewrite Hkid, (IHkids (S i)). unfold querySelector.
  destruct (selector kid); [reflexivity|]. cbn [orb app].
  destruct (querySelectorAll selector kid); reflexivity.
Qed.

Lemma with_button_element localName classList kids :
  with_button (Element localName classList kids)
  = Element localName classList
      (List.map with_button kids
       ++ (if jsstring_eqb localName (lit "pre")
              && negb (contains_matching (has_class (lit "copy-btn"))
                         (Element localName classList kids))
           then [copy_button] else [])).
Proof.
  rewrite contains_matching_spec. cbn [with_button is_element_named].
  destruct (jsstring_eqb localName (lit "pre")); cbn [andb].
  - destruct (querySelector _ _); cbn [negb]; [rewrite app_nil_r|]; reflexivity.
  - rewrite app_nil_r. reflexivity.
Qed.

Lemma has_class_with_button (token : jsstring) (n : Node) :
  has_class token (with_button n) = has_class token n.
Proof. destruct n; [reflexivity|]. rewrite with_button_element. reflexivity. Qed.

Lemma is_element_named_with_button (name : jsstring) (n : Node) :
  is_element_named name (with_button n) = is_element_named name n.
Proof. destruct n; [reflexivity|]. rewrite with_button_element. reflexivity. Qed.

Lemma contains_matching_with_button (selector : Node -> bool) :
  (forall m, selector (with_button m) = selector m) ->
  forall n, contains_matching selector n = true ->
            contains_matching selector (with_button n) = true.
Proof.
  intros Hsel n. induction n as [data | localName classList kids IH] using Node_induction;
    [discriminate|].
  rewrite with_button_element. cbn [contains_matching]. intro H.
  rewrite existsb_app. apply orb_true_iff. left.
  apply existsb_exists in H as (kid & Hin & Hkid).
  apply existsb_exists. exists (with_button kid). split; [apply in_map, Hin|].
  rewrite Hsel. apply orb_true_iff in Hkid as [Hk | Hk]; [rewrite Hk; reflexivity|].
  rewrite Forall_forall in IH. rewrite (IH kid Hin Hk). apply orb_true_r.
Qed.

Lemma contains_matching_kids (selector : Node -> bool) localName classList kids extra :
  (forall m, selector (with_button m) = selector m) ->
  contains_matching selector (Element localName classList kids) = true ->
  contains_matching selector
    (Element localName classList (List.map with_button kids ++ extra)) = true.
Proof.
  intros Hsel H. cbn [contains_matching] in *.
  rewrite existsb_app. apply orb_true_iff. left.
  apply existsb_exists in H as (kid & Hin & Hkid).
  apply existsb_exists. exists (with_button kid). split; [apply in_map, Hin|].
  rewrite Hsel. apply orb_true_iff in Hkid as [Hk | Hk]; [rewrite Hk; reflexivity|].
  rewrite (@contains_matching_with_button selector Hsel kid Hk). apply orb_true_r.
Qed.

Lemma with_button_idempotent (n : Node) : with_button (with_button n) = with_button n.
Proof.
  induction n as [data | localName classList kids IH] using Node_induction;
    [reflexivity|].
  assert (Hkids : List.map with_button (List.map with_button kids) = List.map with_button kids).
  { rewrite map_map. apply map_ext_Forall, IH. }
  rewrite (with_button_element localName classList kids).
  destruct (jsstring_eqb localName (lit "pre")
            && negb (contains_matching (has_class (lit "copy-btn"))
                       (Element localName classList kids))) eqn:E.
  - rewrite with_button_element.
    assert (Hc : contains_matching (has_class (lit "copy-btn"))
                   (Element localName classList
                      (List.map with_button kids ++ [copy_button])) = true).
    { cbn [contains_matching]. rewrite existsb_app. apply orb_true_iff. right.
      reflexivity. }
    rewrite Hc. cbn [negb]. rewrite andb_false_r, map_app, Hkids, app_nil_r.
    reflexivity.
  - rewrite app_nil_r, with_button_element, Hkids.
    apply andb_false_iff in E as [E | E].
    + rewrite E. cbn [andb]. rewrite app_nil_r. reflexivity.
    + apply negb_false_iff in E.
      pose proof (@contains_matching_kids _ localName classList kids []
                    (has_class_with_button (lit "copy-btn")) E) as Hc.
      rewrite app_nil_r in Hc. rewrite Hc. cbn [negb].
      rewrite andb_false_r, app_nil_r. reflexivity.
Qed.

Lemma children_matching_with_button (selector : Node -> bool) (kids : list Node) :
  (forall m, selector (with_button m) = selector m) ->
  Forall (fun kid => querySelectorAll selector (with_button kid)
                     = querySelectorAll selector kid) kids ->
  forall i, children_matching selector i (List.map with_button kids)
            = children_matching selector i kids.
Proof.
  intros Hsel. induction 1 as [|kid kids Hkid _ IH]; intro i; [reflexivity|].
  cbn [List.map children_matching]. rewrite Hsel, Hkid, IH. reflexivity.
Qed.

(** The run adds no block and moves none. *)
Lemma blocks_with_button (n : Node) :
  querySelectorAll (is_element_named (lit "pre")) (with_button n)
  = querySelectorAll (is_element_named (lit "pre")) n.
Proof.
  induction n as [data | localName classList kids IH] using Node_induction;
    [reflexivity|].
  rewrite with_button_element, !querySelectorAll_element, children_matching_app.
  rewrite (@children_matching_with_button _ kids
             (is_element_named_with_button (lit "pre")) IH).
  destruct (jsstring_eqb localName (lit "pre") && _); [|apply app_nil_r].
  cbn [children_matching]. unfold copy_button. rewrite querySelectorAll_element.
  cbn. apply app_nil_r.
Qed.

Lemma children_matching_in (selector : Node -> bool) (kids : list Node) :
  forall i ref,
    In ref (children_matching selector i kids) ->
    exists j kid r,
      ref = (i + j) :: r /\ nth_error kids j = Some kid
      /\ ((r = [] /\ selector kid = true) \/ In r (querySelectorAll selector kid)).
Proof.
  induction kids as [|kid kids IH]; intros i ref H; [destruct H|].
  cbn [children_matching] in H. rewrite !in_app_iff in H. destruct H as [H | [H | H]].
  - destruct (selector kid) eqn:E; [|destruct H]. destruct H as [<- | []].
    exists 0, kid, []. rewrite Nat.add_0_r. auto.
  - apply in_map_iff in H as (r & <- & Hr).
    exists 0, kid, r. rewrite Nat.add_0_r. auto.
  - apply IH in H as (j & k & r & -> & Hn & Hr).
    exists (S j), k, r. rewrite Nat.add_succ_r. auto.
Qed.

(** A reference [querySelectorAll] returns leads to a descendant that
    matches. *)
Lemma querySelectorAll_sound (selector : Node -> bool) (n : Node) :
  forall ref,
    In ref (querySelectorAll selector n) ->
    exists b, node_at ref n = Some b /\ selector b = true /\ In b (descendants n).
Proof.
  induction n as [data | localName classList kids IH] using Node_induction;
    intros ref H; [destruct H|].
  rewrite querySelectorAll_element in H.
  apply children_matching_in in H as (j & kid & r & -> & Hn & Hr).
  cbn [Nat.add node_at descendants]. rewrite Hn.
  pose proof (nth_error_In _ _ Hn) as Hin.
  destruct Hr as [[-> Hs] | Hr].
  - exists kid. split; [reflexivity|]. split; [exact Hs|].
    apply in_flat_map. exists kid. split; [exact Hin | left; reflexivity].
  - rewrite Forall_forall in IH. destruct (IH kid Hin r Hr) as (b & Hb & Hs & Hd).
    exists b. split; [exact Hb|]. split; [exact Hs|].
    apply in_flat_map. exists kid. split; [exact Hin | right; exact Hd].
Qed.

(** After the visit every [pre] has a [.copy-btn] inside. *)
Lemma with_button_covered (n : Node) :
  forall b, In b (with_button n :: descendants (with_button n)) ->
            is_element_named (lit "pre") b = true ->
            contains_matching (has_class (lit "copy-btn")) b = true.
Proof.
  induction n as [data | localName classList kids IH] using Node_induction;
    intros b Hb Hpre.
  - destruct Hb as [<- | []]. discriminate.
  - rewrite with_button_element in Hb. destruct Hb as [<- | Hb].
    + cbn [is_element_named] in Hpre. rewrite Hpre. cbn [andb].
      destruct (contains_matching (has_class (lit "copy-btn"))
                  (Element localName classList kids)) eqn:Ec; cbn [negb].
      * apply contains_matching_kids; [apply has_class_with_button | exact Ec].
      * cbn [contains_matching]. rewrite existsb_app. apply orb_true_iff. right.
        reflexivity.
    + cbn [descendants] in Hb. rewrite flat_map_app, in_app_iff in Hb.
      destruct Hb as [Hb | Hb].
      * apply in_flat_map in Hb as (k' & Hk' & Hb).
        apply in_map_iff in Hk' as (kid & <- & Hin).
        rewrite Forall_forall in IH. apply (IH kid Hin b Hb Hpre).
      * destruct (jsstring_eqb localName (lit "pre") && _); [|destruct Hb].
        destruct Hb as [<- | [<- | []]]; discriminate.
Qed.

Lemma with_buttons_inside_idempotent (parent : Node) :
  with_buttons_inside (with_buttons_inside parent) = with_buttons_inside parent.
Proof.
  destruct parent as [data | localName classList kids]; [reflexivity|].
  cbn [with_buttons_inside]. rewrite map_map.
  rewrite (map_ext _ _ with_button_idempotent). reflexivity.
Qed.

Lemma blocks_with_buttons_inside (parent : Node) :
  querySelectorAll (is_element_named (lit "pre")) (with_buttons_inside parent)
  = querySelectorAll (is_element_named (lit "pre")) parent.
Proof.
  destruct parent as [data | localName classList kids]; [reflexivity|].
  cbn [with_buttons_inside]. rewrite !querySelectorAll_element.
  apply children_matching_with_button; [apply is_element_named_with_button|].
  apply Forall_forall. intros kid _. apply blocks_with_button.
Qed.

Lemma with_buttons_inside_covered (parent : Node) :
  forall b, In b (descendants (with_buttons_inside parent)) ->
            is_element_named (lit "pre") b = true ->
            contains_matching (has_class (lit "copy-btn")) b = true.
Proof.
  destruct parent as [data | localName classList kids]; intros b Hb; [destruct Hb|].
  cbn [with_buttons_inside descendants] in Hb.
  apply in_flat_map in Hb as (k' & Hk' & Hb).
  apply in_map_iff in Hk' as (kid & <- & Hin).
  apply (@with_button_covered kid b Hb).
Qed.

(** X13.  The loop over the list of blocks taken before it starts acts on
    each block by what the block held before the run: the tree that
    results is the one a single visit gives, in which each [pre] below
    [parent] that had no [.copy-btn] element inside it has one Copy button
    more, as its last child, and nothing else has changed.  [parent]
    itself gets no button, even when it is a [pre], and a [pre] that holds
    such an element anywhere inside it, in a nested block for instance,
    gets none. *)
Theorem copy_buttons_block_by_block (parent : Node) :
  addCopyButtons parent = with_buttons_inside parent
  /\ (forall localName classList kids,
        parent = Element localName classList kids ->
        addCopyButtons parent = Element localName classList (List.map with_button kids))
  /\ (forall localName classList kids,
        with_button (Element localName classList kids)
        = Element localName classList
            (List.map with_button kids
             ++ (if jsstring_eqb localName (lit "pre")
                    && negb (contains_matching (has_class (lit "copy-btn"))
                               (Element localName classList kids))
                 then [copy_button] else [])))
  /\ (forall selector n,
        contains_matching selector n = true <-> querySelector selector n <> None).
Proof.
  split; [apply addCopyButtons_eq|]. split; [|split].
  - intros localName classList kids ->. rewrite addCopyButtons_eq. reflexivity.
  - apply with_button_element.
  - intros selector n. rewrite contains_matching_spec.
    destruct (querySelector selector n); split; congruence.
Qed.

(** X14.  Running [addCopyButtons] again changes nothing: no block ever
    gets a second button. *)
Theorem copy_buttons_are_added_once (parent : Node) :
  addCopyButtons (addCopyButtons parent) = addCopyButtons parent.
Proof. rewrite !addCopyButtons_eq. apply with_buttons_inside_idempotent. Qed.

(** X15.  The run adds no block and moves none, so the references taken
    before the loop stay good, and afterwards each of them leads to a
    [pre] with a [.copy-btn] element inside it. *)
Theorem every_block_has_a_button (parent : Node) :
  querySelectorAll (is_element_named (lit "pre")) (addCopyButtons parent)
  = querySelectorAll (is_element_named (lit "pre")) parent
  /\ forall block,
       In block (querySelectorAll (is_element_named (lit "pre")) parent) ->
       exists pre,
         node_at block (addCopyButtons parent) = Some pre
         /\ is_element_named (lit "pre") pre = true
         /\ querySelector (has_class (lit "copy-btn")) pre <> None.
Proof.
  rewrite addCopyButtons_eq. split; [apply blocks_with_buttons_inside|].
  intros block Hb. rewrite <- blocks_with_buttons_inside in Hb.
  apply querySelectorAll_sound in Hb as (pre & Hat & Hpre & Hd).
  exists pre. split; [exact Hat|]. split; [exact Hpre|].
  pose proof (@with_buttons_inside_covered parent pre Hd Hpre) as Hc.
  rewrite contains_matching_spec in Hc.
  destruct (querySelector (has_class (lit "copy-btn")) pre); congruence.
Qed.

(** ** The session properties at work *)

(** X3 at work: "hello" is sent from a fresh page. *)
Lemma request_carries_the_new_turn_witness :
  exists older before,
    let window := before ++ [user_turn (lit "hello")] in
    fst (sendMessage paragraph (typed (lit "hello"))) = Some (request_body window)
    /\ messages (typed (lit "hello")) = older ++ before
    /\ length window = Nat.min 20 (S (length (messages (typed (lit "hello")))))
    /\ Json.parse (request_body window)
       = Json.Parsed (Json.JObject [(lit "messages", json_of_messages window)]) [].
Proof.
  apply (@request_carries_the_new_turn paragraph (typed (lit "hello"))
           104%N (lit "ello")).
  reflexivity.
Defined.

(** X6 at work: "hello" is sent, the chat is cleared, and the answer
    arrives. *)
Lemma clear_while_pending_witness :
  let p' := session paragraph [Submit; Clear; Settled (Data hi_there)]
              (typed (lit "hello")) in
  messages p' = [assistant_turn (lit "hi there")]
  /\ gene_history p'
     = Some (Json.stringify (json_of_messages [assistant_turn (lit "hi there")]))
  /\ chatBox p' = response_bubbles paragraph hi_there
  /\ sendBtn_disabled p' = false /\ userInput_disabled p' = false.
Proof.
  apply (@clear_while_pending_keeps_the_reply paragraph (typed (lit "hello"))
           104%N (lit "ello") hi_there (lit "hi there")); reflexivity.
Defined.


(** ** More examples *)

(** A code block gets its button; a second run adds nothing. *)
Example code_block_gets_a_button :
  let code := Element (lit "pre") [] [Element (lit "code") [] [TextNode (lit "x = 1")]] in
  let bubble := Element (lit "div") [lit "message"; lit "assistant"] [code] in
  addCopyButtons bubble
  = Element (lit "div") [lit "message"; lit "assistant"]
      [Element (lit "pre") []
         [Element (lit "code") [] [TextNode (lit "x = 1")]; copy_button]]
  /\ addCopyButtons (addCopyButtons bubble) = addCopyButtons bubble.
Proof. split; reflexivity. Qed.

(** A block around a block that already has its button gets none of its
    own; around a block without one, both get theirs. *)
Example nested_blocks :
  let inner := Element (lit "pre") [] [TextNode (lit "x")] in
  let served := Element (lit "pre") [] [TextNode (lit "x"); copy_button] in
  let div kids := Element (lit "div") [] kids in
  addCopyButtons (div [Element (lit "pre") [] [served]])
  = div [Element (lit "pre") [] [served]]
  /\ addCopyButtons (div [Element (lit "pre") [] [inner]])
     = div [Element (lit "pre") [] [served; copy_button]].
Proof. split; reflexivity. Qed.

(** Loading from no entry, from a stored turn with spaces around it,
    from text that is not JSON, from an object, and from an array of
    numbers. *)
Example load_by_stored_entry :
  let document stored := document_at_load stored (Some true) in
  load paragraph (document None) = Loaded (document None)
  /\ (exists p,
        load paragraph
          (document (Some (lit "  "
                           ++ Json.stringify (json_of_messages [user_turn (lit "hi")])
                           ++ lit "  ")))
        = Loaded p
        /\ messages p = [user_turn (lit "hi")]
        /\ chatBox p = [user_bubble (lit "hi")])
  /\ load paragraph (document (Some (lit "{"))) = SyntaxErrorThrown
  /\ load paragraph (document (Some (lit "{}"))) = TypeErrorThrown
  /\ load paragraph (document (Some (lit "[1]"))) = NotTurns [Json.JNumber (lit "1")].
Proof.
  cbv zeta. split; [reflexivity|]. split; [eexists; repeat split|].
  repeat split.
Qed.

(** Shift+Enter and Ctrl+Enter on a typed message. *)
Example enter_with_modifiers :
  let shift_enter := {| key := lit "Enter"; shiftKey := true; ctrlKey := false;
                        altKey := false; metaKey := false |} in
  let ctrl_enter := {| key := lit "Enter"; shiftKey := false; ctrlKey := true;
                       altKey := false; metaKey := false |} in
  fst (onKeydown paragraph shift_enter (typed (lit "hello"))) = (false, None)
  /\ fst (onKeydown paragraph ctrl_enter (typed (lit "hello")))
     = (true, Some (request_body [user_turn (lit "hello")])).
Proof. split; reflexivity. Qed.

(** Two clicks on the theme toggle of a dark page. *)
Example theme_there_and_back :
  let dark := {| body_classList := [lit "app"]; themeToggle_textContent := MOON |} in
  themeToggle_onclick dark
  = {| body_classList := [lit "app"; lit "light"]; themeToggle_textContent := SUN |}
  /\ themeToggle_onclick (themeToggle_onclick dark) = dark.
Proof. split; reflexivity. Qed.
